(** * kdljs: the KDL grammar of [src/parser/kdl.js]

    A shallow embedding of the KDL parser (the class [KdlParser], the
    function [transformLexerError] and the entry point [parse]) and the
    properties of its document model.

    The rules of [kdl.js] are written with the chevrotain parsing DSL
    ([CONSUME], [SUBRULE], [OPTION], [OR], [MANY], [AT_LEAST_ONE]).  The DSL
    is embedded as a small parser monad over the tokens that remain to be
    read, and each rule of the file is translated construct by construct.

    - The rules the class inherits from [BaseParser] ([tag], [string],
      [value], [nonStringValue], [nodeSpace], [lineComment]) and the lexer
      are parameters: [base.js] and [tokens.js] are not part of the sources
      at hand.
    - Chevrotain computes the lookahead of every decision from the grammar.
      With the token types the rules of [kdl.js] name, the alternatives of
      each of its decisions start with different tokens, so that the next
      token decides: a decision is modelled by the set of token types that
      can start a body, and a [GATE] by a boolean.
    - Error recovery is off (chevrotain's default): the first recognition
      exception a rule throws ends the parse, and the parser saves it.  A
      rule of [BaseParser] may besides save a diagnostic and carry on: what
      the rules save that way over a run is a parameter too ([noted]), added
      to the errors of the parser when the run ends.
    - A rule runs on the tokens that remain; the parser, which holds the
      whole token vector, completes the exception it saves with the token
      read last ([saved_exception]) and saves a
      [NotAllInputParsedException] when its first rule returns before the
      end of the input ([not_all_input_parsed]).
    - The local variables a rule assigns in its closures ([node],
      [entriesEnded], [childrenEnded], [hasSpace], [name], [tag], [value])
      are passed from step to step. *)

From Stdlib Require Import Ascii String.
From stdpp Require Import gmap strings list.

Open Scope string_scope.
Open Scope list_scope.
Open Scope nat_scope.

(** ** Tokens *)

(** The token types named by the lexer definition of [kdl.js] (all four
    modes), chevrotain's [EOF], and [Unknown], the type
    [transformLexerError] gives to the text of a lexing error. *)
Inductive TokenType :=
| WhiteSpace | BOM | NewLine | BlockComment | LineComment
| OpenMultiLineComment | CloseMultiLineComment | MultiLineCommentContent
| Boolean | Null | FloatKeyword | MultiLineRawString | RawString
| Integer | Float | SemiColon | Equals | LeftBrace | RightBrace
| LeftParenthesis | RightParenthesis | EscLine
| MultiLineOpenQuote | OpenQuote | Identifier
| Unicode | Escape | UnicodeEscape | WhiteSpaceEscape | CloseQuote
| MultiLineCloseQuote | MultiLineSingleQuote
| EOF | Unknown.

#[global] Instance TokenType_eq_dec : EqDecision TokenType.
Proof. solve_decision. Defined.

(** A position in the text (an offset, a line, a column): a number, which
    is a natural number in every token the lexer makes, or [NaN], the
    position chevrotain gives to its end of file token. *)
Inductive Position :=
| NaN
| Num (n : nat).

Coercion Num : nat >-> Position.

#[global] Instance Position_eq_dec : EqDecision Position.
Proof. solve_decision. Defined.

(** A token instance, with the fields of chevrotain's [createTokenInstance]. *)
Record Token := createTokenInstance {
  tokenType : TokenType;
  image : string;
  startOffset : Position;
  endOffset : Position;
  startLine : Position;
  endLine : Position;
  startColumn : Position;
  endColumn : Position
}.

#[global] Instance Token_eq_dec : EqDecision Token.
Proof. solve_decision. Defined.

(** The sentinel [LA] returns outside the token vector: chevrotain's
    [END_OF_FILE], [createTokenInstance(EOF, "", NaN, NaN, NaN, NaN, NaN,
    NaN)]. *)
Definition END_OF_FILE : Token :=
  createTokenInstance EOF "" NaN NaN NaN NaN NaN NaN.

(** An error of the lexer ([ILexingError]). *)
Record LexerError := {
  error_message : string;
  error_offset : nat;
  error_length : nat;
  error_line : nat;
  error_column : nat
}.

(** ** Recognition exceptions *)

(** The text of a [MismatchedTokenException]: the lexer's own message when
    the exception is made by [transformLexerError], the expected token type
    when it is raised by [CONSUME]. *)
Inductive Message :=
| LexerMessage (m : string)
| Expecting (t : TokenType).

(** The [previousToken] of a [MismatchedTokenException].
    [transformLexerError] passes what [find] returned, a token or
    [undefined].  [CONSUME] passes [LA(0)], the token the parser read last:
    a rule runs on the tokens that remain, so the exception it throws
    records them ([LastRead]), and the parser that holds the whole token
    vector puts the token in when it saves the exception
    ([saved_exception]). *)
Inductive Previous :=
| PreviousToken (t : option Token)
| LastRead (rest : list Token).

(** The exceptions of chevrotain that the parser saves: the three a rule
    throws, and [NotAllInputParsedException], which the parser saves when
    its first rule returns before the end of the input.  The
    [previousToken] of [NoViableAltException] and [EarlyExitException] is
    left out. *)
Inductive RecognitionException :=
| MismatchedTokenException (message : Message) (token : Token)
    (previousToken : Previous)
| NoViableAltException (token : Token)
| EarlyExitException (token : Token)
| NotAllInputParsedException (token : Token).

(** ** The parser monad *)

(** A rule runs on the tokens that remain to be read.  It returns a value and
    the tokens left, or throws a recognition exception.  [OutOfFuel] is the
    answer of a bounded recursion that was cut short; [document_total] shows
    that the bounds chosen below never cut. *)
Inductive Res (A : Type) :=
| Ok (a : A) (rest : list Token)
| Throw (e : RecognitionException)
| OutOfFuel.
Arguments Ok {A} a rest.
Arguments Throw {A} e.
Arguments OutOfFuel {A}.

Definition P (A : Type) : Type := list Token → Res A.

Definition ret {A} (a : A) : P A := fun ts => Ok a ts.

Definition bind {A B} (p : P A) (k : A → P B) : P B := fun ts =>
  match p ts with
  | Ok a ts' => k a ts'
  | Throw e => Throw e
  | OutOfFuel => OutOfFuel
  end.

Declare Scope parser_scope.
Delimit Scope parser_scope with parser.
Notation "x <- p ;; k" := (bind p (fun x => k))
  (at level 100, p at next level, right associativity) : parser_scope.
Open Scope parser_scope.

(** [this.LA(1)] *)
Definition LA1 (ts : list Token) : Token :=
  match ts with
  | t :: _ => t
  | [] => END_OF_FILE
  end.

Definition LAtype (ts : list Token) : TokenType := tokenType (LA1 ts).

(** [this.CONSUME(T)]: the next token if it has type [T]; otherwise a
    [MismatchedTokenException] about the next token, with the token read
    last as previous token. *)
Definition CONSUME (T : TokenType) : P Token := fun ts =>
  if decide (LAtype ts = T) then Ok (LA1 ts) (tail ts)
  else Throw (MismatchedTokenException (Expecting T) (LA1 ts) (LastRead ts)).

(** [this.OPTION(body)]: entered when the next token can start [body];
    its value is the value of [body], [undefined] ([None]) otherwise. *)
Definition OPTION {A} (first : TokenType → bool) (body : P A) : P (option A) :=
  fun ts =>
    if first (LAtype ts) then (a <- body ;; ret (Some a)) ts
    else Ok None ts.

(** One alternative of [this.OR([...])]: its [GATE] ([true] when it has
    none), the tokens that can start it, and its [ALT]. *)
Record Alt (A : Type) := mkAlt {
  GATE : bool;
  FIRST : TokenType → bool;
  ALT : P A
}.
Arguments mkAlt {A} GATE FIRST ALT.
Arguments GATE {A} _.
Arguments FIRST {A} _.
Arguments ALT {A} _.

(** [this.OR(alts)]: the first alternative whose gate holds and that the next
    token can start; a [NoViableAltException] when there is none. *)
Fixpoint OR {A} (alts : list (Alt A)) : P A := fun ts =>
  match alts with
  | [] => Throw (NoViableAltException (LA1 ts))
  | a :: alts' =>
      if GATE a && FIRST a (LAtype ts) then ALT a ts else OR alts' ts
  end.

(** The loop of [this.MANY({ GATE, DEF })] ([manyInternalLogic]): while the
    gate and the lookahead hold ([enter]), run [DEF]; an iteration that did
    not advance in the input ends the loop ([doSingleRepetition] compares the
    positions in the token vector before and after).  Every iteration that
    goes on leaves fewer tokens, so [S (length ts)] iterations are never
    used up ([answers_MANY]). *)
Fixpoint MANY_loop {St} (n : nat) (enter : St → list Token → bool)
    (DEF : St → P St) (s : St) (ts : list Token) : Res St :=
  if enter s ts then
    match n with
    | 0 => OutOfFuel
    | S n' =>
        match DEF s ts with
        | Ok s' ts' =>
            if bool_decide (length ts' < length ts)
            then MANY_loop n' enter DEF s' ts'
            else Ok s' ts'
        | Throw e => Throw e
        | OutOfFuel => OutOfFuel
        end
    end
  else Ok s ts.

Definition MANY {St} (enter : St → list Token → bool) (DEF : St → P St)
    (s : St) : P St :=
  fun ts => MANY_loop (S (length ts)) enter DEF s ts.

(** [this.AT_LEAST_ONE(body)]: an [EarlyExitException] unless the next token
    can start [body]; then as [MANY], the first iteration being certain. *)
Definition AT_LEAST_ONE (first : TokenType → bool) (body : P ()) : P () :=
  fun ts =>
    if first (LAtype ts) then
      match body ts with
      | Ok _ ts' =>
          if bool_decide (length ts' < length ts)
          then MANY (fun _ ts => first (LAtype ts)) (fun _ => body) () ts'
          else Ok () ts'
      | Throw e => Throw e
      | OutOfFuel => OutOfFuel
      end
    else Throw (EarlyExitException (LA1 ts)).

(** A rule of [BaseParser], which is not part of the sources at hand: on the
    remaining tokens it throws an exception, which the parser saves as it
    saves every exception a rule throws, or returns its value and the number
    of tokens it consumed.  A rule may also save a diagnostic and carry on:
    what the rules save that way is [noted], below. *)
Inductive BaseRes (A : Type) :=
| Matched (a : A) (consumed : nat)
| Failed (e : RecognitionException).
Arguments Matched {A} a consumed.
Arguments Failed {A} e.

Definition BaseRule (A : Type) : Type := list Token → BaseRes A.

(** [this.SUBRULE(rule)] for a rule of [BaseParser]. *)
Definition SUBRULE {A} (rule : BaseRule A) : P A := fun ts =>
  match rule ts with
  | Matched a n => Ok a (drop n ts)
  | Failed e => Throw e
  end.

(** The truth value of what [OPTION] returned for a rule whose value is used
    as a condition ([hasSpace]): [undefined] is false. *)
Definition truthy (o : option bool) : bool := default false o.

(** ** Objects used as maps *)

(** A plain object created by [{}] and used as a map from strings: its own
    properties, and whether its prototype has been set to [null].  As long
    as the prototype is [Object.prototype], the key [__proto__] is the
    inherited accessor: assigning to it changes the prototype when the value
    is an object or [null] and does nothing otherwise; it never creates an own
    property. *)
Record JsObject (A : Type) := mkObject {
  own : gmap string A;
  nullProto : bool
}.
Arguments mkObject {A} own nullProto.
Arguments own {A} _.
Arguments nullProto {A} _.

(** [{}] *)
Definition obj_empty {A} : JsObject A := mkObject ∅ false.

(** [o[k] = v], where [isNull] tells whether [v] is [null] (the values stored
    here are never objects). *)
Definition obj_set {A} (isNull : A → bool) (k : string) (v : A)
    (o : JsObject A) : JsObject A :=
  if bool_decide (k = "__proto__") && negb (nullProto o) then
    if isNull v then mkObject (own o) true else o
  else mkObject (<[k := v]> (own o)) (nullProto o).

(** ** Text of a lexing error *)

(** [s.split(/\r?\n/g)]: the lines of [s]; a line ends at a line feed, with
    the carriage return before it when there is one. *)
Fixpoint split_lines (s : string) : list string :=
  match s with
  | EmptyString => [EmptyString]
  | String c s' =>
      if bool_decide (c = "010"%char) then EmptyString :: split_lines s'
      else
        match s' with
        | String c' s'' =>
            if bool_decide (c = "013"%char) && bool_decide (c' = "010"%char)
            then EmptyString :: split_lines s''
            else
              match split_lines s' with
              | l :: ls => String c l :: ls
              | [] => [String c EmptyString]
              end
        | EmptyString => [String c EmptyString]
        end
  end.

(** [text.slice(a, b)] for [a <= b] *)
Definition slice (text : string) (a b : nat) : string :=
  substring a (b - a) text.

(** [token.endOffset + 1 === offset], which no token whose end offset is
    [NaN] satisfies. *)
Definition ends_before (offset : nat) (token : Token) : bool :=
  match endOffset token with
  | Num n => bool_decide (n + 1 = offset)
  | NaN => false
  end.

(** [transformLexerError(error, tokens, text)] *)
Definition transformLexerError (error : LexerError) (tokens : list Token)
    (text : string) : RecognitionException :=
  let endOffset' := error_offset error + error_length error in
  let image := slice text (error_offset error) endOffset' in
  let lines := split_lines image in
  let prevToken :=
    find (fun token => ends_before (error_offset error) token) tokens in
  MismatchedTokenException
    (LexerMessage (error_message error))
    (createTokenInstance
       Unknown
       image
       (error_offset error)
       endOffset'
       (error_line error)
       (error_line error + length lines - 1)
       (error_column error)
       (error_column error + String.length (List.last lines EmptyString)))
    (PreviousToken prevToken).

(** ** The document model *)

(** Modelled from the spec: the type of the values, which the rules [value]
    and [nonStringValue] of [BaseParser] build; the spec's data model gives
    its cases (string, number, boolean, null), and [propertyOrArgument]
    uses the result of the rule [string] as a value.  [Number] stands for
    the numbers of the host language. *)
Inductive Value (Number : Type) :=
| VString (s : string)
| VNumber (n : Number)
| VBoolean (b : bool)
| VNull.
Arguments VString {Number} s.
Arguments VNumber {Number} n.
Arguments VBoolean {Number} b.
Arguments VNull {Number}.

Definition isNull {Number} (v : Value Number) : bool :=
  match v with VNull => true | _ => false end.

(** A tag is a string or [undefined]; it is never [null]. *)
Definition noNull (t : option string) : bool := false.

(** [node.tags] *)
Record Tags := mkTags {
  tags_name : option string;
  tags_properties : JsObject (option string);
  tags_values : list (option string)
}.

(** The object [node] builds and returns. *)
#[warnings="-register-all"] Inductive Node (Number : Type) := mkNode {
  name : option string;
  properties : JsObject (Value Number);
  values : list (Value Number);
  children : list (Node Number);
  tags : Tags
}.
Arguments mkNode {Number} name properties values children tags.
Arguments name {Number} _.
Arguments properties {Number} _.
Arguments values {Number} _.
Arguments children {Number} _.
Arguments tags {Number} _.

Definition Document (Number : Type) : Type := list (Node Number).

(** ** The grammar *)

(** The rules [KdlParser] inherits from [BaseParser], with the token types
    that can start each (from which chevrotain computes the lookahead of every
    [OPTION], [OR], [MANY] and [AT_LEAST_ONE] that begins with the rule).
    [nodeSpace] returns the truth value of its result, which [node] uses as
    [hasSpace]. *)
Class BaseParser (Number : Type) := mkBaseParser {
  tag : BaseRule string;
  string_ : BaseRule string;
  value : BaseRule (Value Number);
  nonStringValue : BaseRule (Value Number);
  nodeSpace : BaseRule bool;
  lineComment : BaseRule ();
  first_tag : TokenType → bool;
  first_string : TokenType → bool;
  first_nonStringValue : TokenType → bool;
  first_nodeSpace : TokenType → bool;
  first_lineComment : TokenType → bool;
  (** The diagnostics the rules above save without throwing
      ([SAVE_ERROR]) while the parser runs on a token vector, in the order
      they are saved.  They play no part in what a rule returns or
      consumes. *)
  noted : list Token → list RecognitionException
}.

(** [lexer.tokenize] of the shared [Lexer], built from the token definitions
    of [tokens.js]. *)
Class Lexer := mkLexer {
  tokenize : string → list Token * list LexerError
}.

Section Grammar.

Context {Number : Type} {Base : BaseParser Number}.

#[local] Abbreviation Value := (Value Number).
#[local] Abbreviation Node := (Node Number).
#[local] Abbreviation Document := (Document Number).

(** The tokens that can start [CONSUME(T)]. *)
Definition only (T : TokenType) : TokenType → bool :=
  fun t => bool_decide (t = T).

Definition first_lineSpace (t : TokenType) : bool :=
  first_nodeSpace t || only NewLine t || first_lineComment t.

Definition first_propertyOrArgument (t : TokenType) : bool :=
  first_tag t || first_nonStringValue t || first_string t.

Definition first_node (t : TokenType) : bool :=
  first_tag t || first_string t.

Definition first_nodes (t : TokenType) : bool :=
  only BlockComment t || first_lineSpace t || first_node t.

(** The alternatives of the entry loop of [node]. *)
Definition first_entry (t : TokenType) : bool :=
  first_propertyOrArgument t || only LeftBrace t || only BlockComment t.

(** [nodeEndTokens] *)
Definition nodeEndTokens (t : TokenType) : bool :=
  bool_decide (t ∈ [RightBrace; LineComment; NewLine; SemiColon; EOF]).

(** [this.OPTION(() => this.SUBRULE(this.nodeSpace))] *)
Definition optSpace : P (option bool) :=
  OPTION first_nodeSpace (SUBRULE nodeSpace).

(** Rule [lineSpace] *)
Definition lineSpace : P () :=
  AT_LEAST_ONE first_lineSpace (OR [
    mkAlt true first_nodeSpace (_ <- SUBRULE nodeSpace ;; ret ());
    mkAlt true (only NewLine) (_ <- CONSUME NewLine ;; ret ());
    mkAlt true first_lineComment (SUBRULE lineComment)
  ]).

(** Rule [nodeTerminator] *)
Definition nodeTerminator : P () :=
  OR [
    mkAlt true first_lineComment (SUBRULE lineComment);
    mkAlt true (only NewLine) (_ <- CONSUME NewLine ;; ret ());
    mkAlt true (only SemiColon) (_ <- CONSUME SemiColon ;; ret ());
    mkAlt true (only EOF) (_ <- CONSUME EOF ;; ret ())
  ].

(** The tuple [[name, value, tag, hasSpaceAfter]] of [propertyOrArgument];
    the last component is kept as its truth value. *)
Record Parts := mkParts {
  parts0 : option string;
  parts1 : Value;
  parts2 : option string;
  parts3 : bool
}.

(** Rule [propertyOrArgument] *)
Definition propertyOrArgument : P Parts :=
  OR [
    mkAlt true first_tag (
      tag' <- SUBRULE tag ;;
      _ <- optSpace ;;
      value' <- SUBRULE value ;;
      hasSpaceAfter <- optSpace ;;
      ret (mkParts None value' (Some tag') (truthy hasSpaceAfter)));
    mkAlt true first_nonStringValue (
      value' <- SUBRULE nonStringValue ;;
      hasSpaceAfter <- optSpace ;;
      ret (mkParts None value' None (truthy hasSpaceAfter)));
    mkAlt true first_string (
      value0 <- SUBRULE string_ ;;
      hasSpaceAfter0 <- optSpace ;;
      assigned <- OPTION (only Equals) (
        _ <- CONSUME Equals ;;
        _ <- optSpace ;;
        tag' <- OPTION first_tag (
          tag'' <- SUBRULE tag ;;
          _ <- optSpace ;;
          ret tag'') ;;
        value' <- SUBRULE value ;;
        hasSpaceAfter <- optSpace ;;
        ret (mkParts (Some value0) value' tag' (truthy hasSpaceAfter))) ;;
      ret (default
             (mkParts None (VString value0) None (truthy hasSpaceAfter0))
             assigned))
  ].

(** The [node.properties[k] = v; node.tags.properties[k] = t] of [node]. *)
Definition set_property (k : string) (v : Value) (t : option string)
    (n : Node) : Node :=
  mkNode (name n) (obj_set isNull k v (properties n)) (values n)
    (children n)
    (mkTags (tags_name (tags n))
       (obj_set noNull k t (tags_properties (tags n)))
       (tags_values (tags n))).

(** The [node.values.push(v); node.tags.values.push(t)] of [node]. *)
Definition push_value (v : Value) (t : option string) (n : Node) : Node :=
  mkNode (name n) (properties n) (values n ++ [v]) (children n)
    (mkTags (tags_name (tags n)) (tags_properties (tags n))
       (tags_values (tags n) ++ [t])).

(** [node.children = c] *)
Definition set_children (c : list Node) (n : Node) : Node :=
  mkNode (name n) (properties n) (values n) c (tags n).

(** What the entry loop of [node] reads and writes: the node under
    construction and the locals [entriesEnded], [childrenEnded] and
    [hasSpace]. *)
Record NodeState := mkNodeState {
  the_node : Node;
  entriesEnded : bool;
  childrenEnded : bool;
  hasSpace : bool
}.

(** What the entry alternative does with the tuple it parsed. *)
Definition add_entry (parts : Parts) (n : Node) : Node :=
  match parts0 parts with
  | Some k => set_property k (parts1 parts) (parts2 parts) n
  | None => push_value (parts1 parts) (parts2 parts) n
  end.

(** What may follow a block comment inside a node ([OR1]): an entry, which
    is dropped, while the entries are open; or a children block, which is
    dropped and ends the entries. *)
Definition commented (nodeChildren : P (list Node)) (s : NodeState)
    : P NodeState :=
  OR [
    mkAlt (negb (entriesEnded s)) first_propertyOrArgument (
      parts <- propertyOrArgument ;;
      ret (mkNodeState (the_node s) (entriesEnded s) (childrenEnded s)
             (parts3 parts)));
    mkAlt true (only LeftBrace) (
      _ <- nodeChildren ;;
      space <- optSpace ;;
      ret (mkNodeState (the_node s) true (childrenEnded s) (truthy space)))
  ].

(** The body ([DEF]) of the entry loop of [node]. *)
Definition node_entry (nodeChildren : P (list Node)) (s : NodeState)
    : P NodeState :=
  OR [
    mkAlt (negb (entriesEnded s)) first_propertyOrArgument (
      parts <- propertyOrArgument ;;
      ret (mkNodeState (add_entry parts (the_node s))
             (entriesEnded s) (childrenEnded s) (parts3 parts)));
    mkAlt (negb (childrenEnded s)) (only LeftBrace) (
      c <- nodeChildren ;;
      space <- optSpace ;;
      ret (mkNodeState (set_children c (the_node s)) true true
             (truthy space)));
    mkAlt true (only BlockComment) (
      _ <- CONSUME BlockComment ;;
      _ <- OPTION first_lineSpace lineSpace ;;
      commented nodeChildren s)
  ].

(** The [GATE] of the entry loop together with its lookahead. *)
Definition entry_gate (s : NodeState) (ts : list Token) : bool :=
  hasSpace s && negb (nodeEndTokens (LAtype ts)) && first_entry (LAtype ts).

(** The end of [node]: a terminator unless a closing brace follows. *)
Definition node_end (n : Node) : P Node := fun ts =>
  if bool_decide (LAtype ts ≠ RightBrace)
  then (_ <- nodeTerminator ;; ret n) ts
  else ret n ts.

(** The object [node] has built when its name is read: the name, the tag
    read before it if any, and nothing else. *)
Definition named_node (tagName : option string) (name' : string) : Node :=
  mkNode (Some name') obj_empty [] [] (mkTags tagName obj_empty []).

(** Rule [node], up to the end of its entry loop. *)
Definition node_entries (nodeChildren : P (list Node)) : P NodeState :=
  tagName <- OPTION first_tag (
    tag' <- SUBRULE tag ;;
    _ <- optSpace ;;
    ret tag') ;;
  name' <- SUBRULE string_ ;;
  space <- optSpace ;;
  MANY entry_gate (node_entry nodeChildren)
    (mkNodeState (named_node tagName name') false false (truthy space)).

(** Rule [node] *)
Definition node (nodeChildren : P (list Node)) : P Node :=
  s <- node_entries nodeChildren ;;
  node_end (the_node s).

(** Rule [nodeChildren] *)
Definition nodeChildren (nodes : P (list Node)) : P (list Node) :=
  _ <- CONSUME LeftBrace ;;
  nodes' <- nodes ;;
  _ <- CONSUME RightBrace ;;
  ret nodes'.

(** The body of the loop of [nodes]. *)
Definition nodes_item (node : P Node) (acc : list Node) : P (list Node) :=
  OR [
    mkAlt true (only BlockComment) (
      _ <- CONSUME BlockComment ;;
      _ <- OPTION first_lineSpace lineSpace ;;
      _ <- node ;;
      ret acc);
    mkAlt true first_lineSpace (_ <- lineSpace ;; ret acc);
    mkAlt true first_node (n <- node ;; ret (acc ++ [n]))
  ].

(** The loop of [nodes], from the nodes read so far. *)
Definition nodes_loop (node : P Node) (acc : list Node) : P (list Node) :=
  MANY (fun _ ts => first_nodes (LAtype ts)) (nodes_item node) acc.

(** Rule [nodes], at a bounded depth of nested children blocks. *)
Fixpoint nodes (depth : nat) : P (list Node) :=
  match depth with
  | 0 => fun _ => OutOfFuel
  | S d => nodes_loop (node (nodeChildren (nodes d))) []
  end.

(** Rule [document], with the depth allowed to its nodes. *)
Definition document_at (depth : nat) : P Document :=
  _ <- OPTION (only BOM) (CONSUME BOM) ;;
  nodes' <- nodes depth ;;
  _ <- CONSUME EOF ;;
  ret nodes'.

(** Rule [document].  A children block takes at least one token, so the
    depth of a document never exceeds the number of its tokens: the bound is
    never reached ([document_total]) and a larger one changes nothing
    ([document_depth]). *)
Definition document : P Document := fun ts =>
  document_at (S (length ts)) ts.

(** ** The entry point *)

Context {Lex : Lexer}.

(** The state of the shared [parser] that [parse] writes and reads: the
    token vector and the saved errors. *)
Record ParserState := mkParserState {
  tokVector : list Token;
  savedErrors : list RecognitionException
}.

(** [parser.input = tokens]: the setter resets the parser. *)
Definition set_input (tokens : list Token) (st : ParserState) : ParserState :=
  mkParserState tokens [].

(** [this.LA(0)] where [rest] remain of the token vector [tokens]: the token
    before them, [END_OF_FILE] when nothing has been read. *)
Definition LA0 (tokens rest : list Token) : Token :=
  match length tokens - length rest with
  | 0 => END_OF_FILE
  | S i => default END_OF_FILE (tokens !! i)
  end.

(** The exception as the parser saves it: the previous token of a
    [MismatchedTokenException] that [CONSUME] threw is the token read
    last. *)
Definition saved_exception (tokens : list Token) (e : RecognitionException)
    : RecognitionException :=
  match e with
  | MismatchedTokenException m t (LastRead rest) =>
      MismatchedTokenException m t (PreviousToken (Some (LA0 tokens rest)))
  | _ => e
  end.

(** What the parser saves when its first rule returns ([isAtEndOfInput]):
    nothing when the next token has the type [EOF], a
    [NotAllInputParsedException] about the next token otherwise. *)
Definition not_all_input_parsed (rest : list Token)
    : list RecognitionException :=
  if decide (LAtype rest = EOF) then []
  else [NotAllInputParsedException (LA1 rest)].

(** [parser.document()].  When the rule returns, so does the invocation,
    and the parser has saved what the rules of the base parser noted and
    what the end of the invocation adds.  When the rule throws, the
    exception is saved after what was noted and the invocation returns
    [undefined] (the parser goes to the end of its input, so that the end of
    the invocation adds nothing). *)
Definition invoke_document (st : ParserState)
    : option (option Document * ParserState) :=
  let tokens := tokVector st in
  match document tokens with
  | Ok d rest =>
      Some (Some d,
            mkParserState tokens
              (savedErrors st ++ noted tokens ++ not_all_input_parsed rest))
  | Throw e =>
      Some (None,
            mkParserState tokens
              (savedErrors st ++ noted tokens ++ [saved_exception tokens e]))
  | OutOfFuel => None
  end.

Record ParseResult := mkParseResult {
  output : option Document;
  errors : list RecognitionException
}.

(** [parse(text)], from a state of the shared parser to the result and the
    state the parser is left in.  [None] stands for a recursion that was cut
    short, which does not happen ([parse_total]). *)
Definition parse (text : string) (st : ParserState)
    : option (ParseResult * ParserState) :=
  let '(tokens, errs) := tokenize text in
  if bool_decide (errs ≠ []) then
    Some (mkParseResult None
            (map (fun error => transformLexerError error tokens text) errs),
          st)
  else
    '(output', st') ← invoke_document (set_input tokens st);
    Some (mkParseResult output' (savedErrors st'), st').

End Grammar.

Arguments Parts Number : clear implicits.
Arguments NodeState Number : clear implicits.
Arguments ParseResult Number : clear implicits.
Arguments mkParseResult {Number} output errors.
Arguments output {Number} _.
Arguments errors {Number} _.

(** ** A base parser to run the grammar on *)

(** The rules of [BaseParser] are defined in [base.js], which is not part of
    the sources at hand.  The module below gives them as far as the examples
    of the specification need them, to run the grammar on concrete tokens. *)
Module Sample.

(** The value of a decimal digit. *)
Definition digit (c : ascii) : option Z :=
  let n := Z.of_nat (nat_of_ascii c) in
  if bool_decide (48 ≤ n ≤ 57)%Z then Some (n - 48)%Z else None.

(** The number a run of decimal digits writes. *)
Fixpoint decimal (acc : Z) (s : string) : Z :=
  match s with
  | EmptyString => acc
  | String c s' =>
      match digit c with
      | Some d => decimal (10 * acc + d)%Z s'
      | None => decimal acc s'
      end
  end.

(** The number of white space tokens [ts] starts with. *)
Fixpoint leading_space (ts : list Token) : nat :=
  match ts with
  | t :: ts' =>
      if decide (tokenType t = WhiteSpace) then S (leading_space ts') else 0
  | [] => 0
  end.

(** Modelled from the spec: the rule [nodeSpace] of [BaseParser], here a run
    of inline white space tokens, at least one. *)
Definition nodeSpace : BaseRule bool := fun ts =>
  match leading_space ts with
  | 0 => Failed (EarlyExitException (LA1 ts))
  | n => Matched true n
  end.

(** Modelled from the spec: the rule [string] of [BaseParser], here a bare
    identifier, whose value is the text of the token. *)
Definition string_ : BaseRule string := fun ts =>
  if decide (LAtype ts = Identifier) then Matched (image (LA1 ts)) 1
  else Failed (NoViableAltException (LA1 ts)).

(** Modelled from the spec: the rule [nonStringValue] of [BaseParser], here
    an integer in decimal digits, a boolean or null. *)
Definition nonStringValue : BaseRule (Value Z) := fun ts =>
  match LAtype ts with
  | Integer => Matched (VNumber (decimal 0 (image (LA1 ts)))) 1
  | Boolean => Matched (VBoolean (bool_decide (image (LA1 ts) = "#true"))) 1
  | Null => Matched VNull 1
  | _ => Failed (NoViableAltException (LA1 ts))
  end.

(** Modelled from the spec: the rule [value] of [BaseParser], a string or a
    non-string value. *)
Definition value : BaseRule (Value Z) := fun ts =>
  if decide (LAtype ts = Identifier) then
    match string_ ts with
    | Matched s n => Matched (VString s) n
    | Failed e => Failed e
    end
  else nonStringValue ts.

(** Modelled from the spec: the rule [lineComment] of [BaseParser], here a
    line comment token. *)
Definition lineComment : BaseRule () := fun ts =>
  if decide (LAtype ts = LineComment) then Matched () 1
  else Failed (MismatchedTokenException (Expecting LineComment) (LA1 ts)
                 (LastRead ts)).

(** A rule written with the combinators, as a rule of [BaseParser]: what it
    consumed is what it left out.  (The rule below has no loop, so it is
    never cut short.) *)
Definition as_rule {A} (p : P A) : BaseRule A := fun ts =>
  match p ts with
  | Ok a rest => Matched a (length ts - length rest)
  | Throw e => Failed e
  | OutOfFuel => Failed (EarlyExitException (LA1 ts))
  end.

(** Modelled from the spec: the rule [tag] of [BaseParser], an opening
    parenthesis, optional space, a string, optional space and a closing
    parenthesis; its value is the string. *)
Definition tag : BaseRule string :=
  as_rule (
    _ <- CONSUME LeftParenthesis ;;
    _ <- OPTION (only WhiteSpace) (SUBRULE nodeSpace) ;;
    tag' <- SUBRULE string_ ;;
    _ <- OPTION (only WhiteSpace) (SUBRULE nodeSpace) ;;
    _ <- CONSUME RightParenthesis ;;
    ret tag').

(** Modelled from the spec: the [BaseParser] of the examples, with the token
    types that start each of its rules; its rules note nothing (the
    specification has no diagnostic besides the one that ends a parse). *)
#[global] Instance base : BaseParser Z :=
  mkBaseParser Z tag string_ value nonStringValue nodeSpace lineComment
    (only LeftParenthesis)
    (only Identifier)
    (fun t => bool_decide (t ∈ [Integer; Boolean; Null]))
    (only WhiteSpace)
    (only LineComment)
    (fun _ => []).

(** A token of a given type and text; the positions play no part in the
    grammar. *)
Definition tok (T : TokenType) (text : string) : Token :=
  createTokenInstance T text 0 0 0 0 0 0.

(** A lexer that answers with a fixed token vector and no error. *)
Definition fixed_lexer (tokens : list Token) : Lexer :=
  mkLexer (fun _ => (tokens, [])).

(** A lexer that answers with fixed errors. *)
Definition failing_lexer (tokens : list Token) (errs : list LexerError)
    : Lexer :=
  mkLexer (fun _ => (tokens, errs)).

(** The tokens of [node a=1 a=2]. *)
Definition node_a1_a2 : list Token :=
  [tok Identifier "node"; tok WhiteSpace " "; tok Identifier "a";
   tok Equals "="; tok Integer "1"; tok WhiteSpace " "; tok Identifier "a";
   tok Equals "="; tok Integer "2"].

(** The tokens of [foo {} {}]. *)
Definition foo_two_blocks : list Token :=
  [tok Identifier "foo"; tok WhiteSpace " "; tok LeftBrace "{";
   tok RightBrace "}"; tok WhiteSpace " "; tok LeftBrace "{";
   tok RightBrace "}"].

(** The tokens of [foo ]], up to the closing bracket, which is no token of
    the lexer definition and no character of an identifier, with their
    positions; and the error of the lexer for that character, with the
    message chevrotain gives it. *)
Definition foo_then : list Token :=
  [createTokenInstance Identifier "foo" 0 2 1 1 1 3;
   createTokenInstance WhiteSpace " " 3 3 1 1 4 4].

Definition unexpected_character : LexerError :=
  {| error_message :=
       "unexpected character: ->]<- at offset: 4, skipped 1 characters.";
     error_offset := 4; error_length := 1;
     error_line := 1; error_column := 5 |}.

(** The tokens of [foo;bar {} {}]. *)
Definition foo_bar_two_blocks : list Token :=
  [tok Identifier "foo"; tok SemiColon ";"; tok Identifier "bar";
   tok WhiteSpace " "; tok LeftBrace "{"; tok RightBrace "}";
   tok WhiteSpace " "; tok LeftBrace "{"; tok RightBrace "}"].

(** The tokens of [node a=(x)1 a=(y)2]. *)
Definition node_ax1_ay2 : list Token :=
  [tok Identifier "node"; tok WhiteSpace " "; tok Identifier "a";
   tok Equals "="; tok LeftParenthesis "("; tok Identifier "x";
   tok RightParenthesis ")"; tok Integer "1"; tok WhiteSpace " ";
   tok Identifier "a"; tok Equals "="; tok LeftParenthesis "(";
   tok Identifier "y"; tok RightParenthesis ")"; tok Integer "2"].

(** The tokens of [node __proto__=(x)1 __proto__=(y)2]. *)
Definition node_proto_twice : list Token :=
  [tok Identifier "node"; tok WhiteSpace " "; tok Identifier "__proto__";
   tok Equals "="; tok LeftParenthesis "("; tok Identifier "x";
   tok RightParenthesis ")"; tok Integer "1"; tok WhiteSpace " ";
   tok Identifier "__proto__"; tok Equals "="; tok LeftParenthesis "(";
   tok Identifier "y"; tok RightParenthesis ")"; tok Integer "2"].

(** The tokens of [foo {} /-{}]. *)
Definition foo_block_commented_block : list Token :=
  [tok Identifier "foo"; tok WhiteSpace " "; tok LeftBrace "{";
   tok RightBrace "}"; tok WhiteSpace " "; tok BlockComment "/-";
   tok LeftBrace "{"; tok RightBrace "}"].

(** The tokens of [foo {} /-1]. *)
Definition foo_block_commented_entry : list Token :=
  [tok Identifier "foo"; tok WhiteSpace " "; tok LeftBrace "{";
   tok RightBrace "}"; tok WhiteSpace " "; tok BlockComment "/-";
   tok Integer "1"].

(** The text of a line end. *)
Definition line_feed : string := String "010"%char EmptyString.

(** The tokens of [/-foo 1], a line end and [bar]. *)
Definition commented_foo_bar : list Token :=
  [tok BlockComment "/-"; tok Identifier "foo"; tok WhiteSpace " ";
   tok Integer "1"; tok NewLine line_feed; tok Identifier "bar"].

(** The tokens of [foo 1 2 {bar}]. *)
Definition foo_1_2_bar : list Token :=
  [tok Identifier "foo"; tok WhiteSpace " "; tok Integer "1";
   tok WhiteSpace " "; tok Integer "2"; tok WhiteSpace " ";
   tok LeftBrace "{"; tok Identifier "bar"; tok RightBrace "}"].

(** The document of [foo 1 2 {bar}]. *)
Definition foo_1_2_bar_document : Document Z :=
  [set_children [named_node None "bar"]
     (push_value (VNumber 2%Z) None
        (push_value (VNumber 1%Z) None (named_node None "foo")))].

(** The tokens of [foo (u8)255]. *)
Definition foo_u8_255 : list Token :=
  [tok Identifier "foo"; tok WhiteSpace " "; tok LeftParenthesis "(";
   tok Identifier "u8"; tok RightParenthesis ")"; tok Integer "255"].

(** The text of a byte order mark, in UTF-8. *)
Definition byte_order_mark : string :=
  String "239"%char (String "187"%char (String "191"%char EmptyString)).

(** The tokens of [foo;bar]. *)
Definition foo_semi_bar : list Token :=
  [tok Identifier "foo"; tok SemiColon ";"; tok Identifier "bar"].

(** The tokens of [foo }]. *)
Definition foo_close : list Token :=
  [tok Identifier "foo"; tok WhiteSpace " "; tok RightBrace "}"].

(** The tokens of two line ends. *)
Definition blank_lines : list Token :=
  [tok NewLine line_feed; tok NewLine line_feed].

(** The tokens of [(t)foo 1]. *)
Definition t_foo_1 : list Token :=
  [tok LeftParenthesis "("; tok Identifier "t"; tok RightParenthesis ")";
   tok Identifier "foo"; tok WhiteSpace " "; tok Integer "1"].

End Sample.


(** ** The nodes of a document *)

(** A node and the nodes below it. *)
Fixpoint subtree {Number} (n : Node Number) : list (Node Number) :=
  match n with
  | mkNode _ _ _ children' _ =>
      n :: (fix forest (l : list (Node Number)) : list (Node Number) :=
              match l with
              | [] => []
              | c :: l' => subtree c ++ forest l'
              end) children'
  end.

(** The nodes of a document, at every depth. *)
Definition all_nodes {Number} (doc : Document Number) : list (Node Number) :=
  concat (map subtree doc).

(** The tags of the arguments are aligned with the arguments, and every
    property that has an entry in the map of tags is a property of the node. *)
Definition aligned {Number} (n : Node Number) : Prop :=
  length (tags_values (tags n)) = length (values n) ∧
  dom (own (tags_properties (tags n))) ⊆ dom (own (properties n)).

(** The invariant of the entry loop of [node] behind [aligned]: the map of
    tags keeps the prototype it is created with. *)
Definition aligned_strict {Number} (n : Node Number) : Prop :=
  aligned n ∧ nullProto (tags_properties (tags n)) = false.

(** The invariant holds in a node and below it; in all of a document. *)
Definition tree_ok {Number} (n : Node Number) : Prop :=
  Forall aligned_strict (subtree n).

Definition forest_ok {Number} (doc : list (Node Number)) : Prop :=
  Forall aligned_strict (all_nodes doc).

(** The entries of a node, added in the order they are read. *)
Definition add_entries {Number} (l : list (Parts Number)) (n : Node Number)
    : Node Number :=
  fold_left (fun n parts => add_entry parts n) l n.

(** [n] is the node named [name'] (tagged [tagName]) with the entries [l]
    added in order, and some children. *)
Definition has_entries {Number} (tagName : option string) (name' : string)
    (l : list (Parts Number)) (n : Node Number) : Prop :=
  n = set_children (children n) (add_entries l (named_node tagName name')).

(** What [propertyOrArgument] returns on some tokens. *)
Definition parsed_entry {Number} {Base : BaseParser Number}
    (parts : Parts Number) : Prop :=
  ∃ ts r, propertyOrArgument ts = Ok parts r.

(** The entries that the entry loop of [node] reads from [ts], in the order
    it reads them, and the tokens it leaves.  From where it has got to, the
    loop reads an entry with [propertyOrArgument]; or a children block,
    which starts with an opening brace, and the node space after it; or a
    block comment and optional line space, followed by an entry or by a
    children block and node space, which add no entry. *)
Inductive entries_read {Number} {Base : BaseParser Number}
    (nc : P (list (Node Number))) (ts : list Token)
    : list (Parts Number) → list Token → Prop :=
| read_none : entries_read nc ts [] ts
| read_entry l ts1 parts ts2 :
    entries_read nc ts l ts1 →
    propertyOrArgument ts1 = Ok parts ts2 →
    entries_read nc ts (l ++ [parts]) ts2
| read_children l ts1 c ts2 sp ts3 :
    entries_read nc ts l ts1 → LAtype ts1 = LeftBrace →
    nc ts1 = Ok c ts2 → optSpace ts2 = Ok sp ts3 →
    entries_read nc ts l ts3
| read_commented_entry l ts1 sp ts2 parts ts3 :
    entries_read nc ts l ts1 → LAtype ts1 = BlockComment →
    OPTION first_lineSpace lineSpace (tail ts1) = Ok sp ts2 →
    propertyOrArgument ts2 = Ok parts ts3 →
    entries_read nc ts l ts3
| read_commented_children l ts1 sp ts2 c ts3 sp' ts4 :
    entries_read nc ts l ts1 → LAtype ts1 = BlockComment →
    OPTION first_lineSpace lineSpace (tail ts1) = Ok sp ts2 →
    nc ts2 = Ok c ts3 → optSpace ts3 = Ok sp' ts4 →
    entries_read nc ts l ts4.

(** ** Diagnostics *)

(** The number of line feeds of a string. *)
Fixpoint count_lf (s : string) : nat :=
  match s with
  | EmptyString => 0
  | String c s' =>
      (if bool_decide (c = "010"%char) then 1 else 0) + count_lf s'
  end.

(** The token of a diagnostic. *)
Definition exception_token (e : RecognitionException) : Token :=
  match e with
  | MismatchedTokenException _ t _ => t
  | NoViableAltException t => t
  | EarlyExitException t => t
  | NotAllInputParsedException t => t
  end.

(** The text after the last line feed of a string; the string itself when
    it has none. *)
Fixpoint after_last_lf (s : string) : string :=
  match s with
  | EmptyString => EmptyString
  | String c s' =>
      if bool_decide (count_lf s' = 0) then
        if bool_decide (c = "010"%char) then s' else s
      else after_last_lf s'
  end.

(** The text the lexer rejected. *)
Definition rejected_text (error : LexerError) (text : string) : string :=
  substring (error_offset error) (error_length error) text.

(** The token that stands for the rejected text in a diagnostic: of type
    [Unknown], from the position of the error to the position after its
    last character. *)
Definition rejected_token (error : LexerError) (text : string) : Token :=
  createTokenInstance Unknown (rejected_text error text)
    (error_offset error) (error_offset error + error_length error)
    (error_line error)
    (error_line error + count_lf (rejected_text error text))
    (error_column error)
    (error_column error +
       String.length (after_last_lf (rejected_text error text))).

(** The token ends on the character before [offset]. *)
Definition ends_right_before (offset : nat) (t : Token) : Prop :=
  ∃ k, endOffset t = Num k ∧ k + 1 = offset.

(** [p] is the first of [tokens] that ends right before [offset]; none when
    no token does. *)
Definition first_ending_before (offset : nat) (tokens : list Token)
    (p : option Token) : Prop :=
  match p with
  | None => Forall (fun t => ¬ ends_right_before offset t) tokens
  | Some t =>
      ∃ before after,
        tokens = before ++ t :: after ∧ ends_right_before offset t ∧
        Forall (fun t' => ¬ ends_right_before offset t') before
  end.

(** The diagnostic [e] reports the error of the lexer: its message, the
    rejected text with where it starts and ends, and the token before it. *)
Definition diagnoses (tokens : list Token) (text : string)
    (error : LexerError) (e : RecognitionException) : Prop :=
  ∃ p, first_ending_before (error_offset error) tokens p ∧
       e = MismatchedTokenException (LexerMessage (error_message error))
             (rejected_token error text) (PreviousToken p).

(** The token read before the one a [MismatchedTokenException] is about. *)
Definition exception_previous (e : RecognitionException) : option Token :=
  match e with
  | MismatchedTokenException _ _ (PreviousToken p) => p
  | _ => None
  end.

(** ** The entries of a node, by kind *)

(** The arguments among the entries of a node, and their tags, in order. *)
Definition arguments {Number} (l : list (Parts Number))
    : list (Value Number) :=
  omap (fun parts => match parts0 parts with
                     | None => Some (parts1 parts)
                     | Some _ => None
                     end) l.

Definition argument_tags {Number} (l : list (Parts Number))
    : list (option string) :=
  omap (fun parts => match parts0 parts with
                     | None => Some (parts2 parts)
                     | Some _ => None
                     end) l.

(** ** The rules of the base parser *)

(** A rule of the base parser that matches has consumed a token. *)
Definition consumes {A} (rule : BaseRule A) : Prop :=
  ∀ ts a n, rule ts = Matched a n → 0 < n ∧ ts ≠ [].

(** The rules of the base parser that stand alone in an alternative or a
    loop of the grammar consume.  ([value] is always read after a token.) *)
Definition productive {Number} (Base : BaseParser Number) : Prop :=
  consumes tag ∧ consumes string_ ∧ consumes nonStringValue ∧
  consumes nodeSpace ∧ consumes lineComment.

(** A function applied to what a rule returned. *)
Definition res_map {A B} (f : A → B) (x : Res A) : Res B :=
  match x with
  | Ok a rest => Ok (f a) rest
  | Throw e => Throw e
  | OutOfFuel => OutOfFuel
  end.

(** ** Predicates on rules *)

(** A rule that returns leaves no more tokens than it was given. *)
Definition shrinks {A} (p : P A) : Prop :=
  ∀ ts a r, p ts = Ok a r → length r ≤ length ts.

(** A rule that returns has consumed a token. *)
Definition advances {A} (p : P A) : Prop :=
  ∀ ts a r, p ts = Ok a r → length r < length ts.

(** On at most [k] tokens the rule returns or throws: its recursion is not
    cut short. *)
Definition answers {A} (k : nat) (p : P A) : Prop :=
  ∀ ts, length ts ≤ k → p ts ≠ OutOfFuel.

(** Wherever [p] is not cut short, [q] answers as [p] does. *)
Definition refines {A} (p q : P A) : Prop :=
  ∀ ts, p ts ≠ OutOfFuel → q ts = p ts.

(** Whatever the rule returns satisfies [Q]. *)
Definition yields {A} (Q : A → Prop) (p : P A) : Prop :=
  ∀ ts a r, p ts = Ok a r → Q a.

(** What the rule leaves is the end of the tokens it was given. *)
Definition leaves_suffix {A} (p : P A) : Prop :=
  ∀ ts a r, p ts = Ok a r → r `suffix_of` ts.

(** The nodes a rule returns, at every depth, are paid for in tokens. *)
Definition paid {Number} (p : P (list (Node Number))) : Prop :=
  ∀ ts ns r, p ts = Ok ns r → length (all_nodes ns) + length r ≤ length ts.

(** The loop of [MANY] gets from [s] on [ts] to [s'] on [ts'] through
    iterations that return and consume. *)
Inductive iterates {St} (enter : St → list Token → bool) (DEF : St → P St)
    : St → list Token → St → list Token → Prop :=
| iterates_refl s ts : iterates enter DEF s ts s ts
| iterates_step s ts s1 ts1 s' ts' :
    enter s ts = true → DEF s ts = Ok s1 ts1 → length ts1 < length ts →
    iterates enter DEF s1 ts1 s' ts' →
    iterates enter DEF s ts s' ts'.

(** The loop of [nodes], started on [ts], has read the nodes [acc] and is
    at [ts']. *)
Definition nodes_reached {Number} {Base : BaseParser Number}
    (nd : P (Node Number)) (ts : list Token) (acc : list (Node Number))
    (ts' : list Token) : Prop :=
  iterates (fun _ ts => first_nodes (LAtype ts)) (nodes_item nd) [] ts acc ts'.

(** * Properties *)

(** ** The text of a lexing error *)

Example split_lines_crlf :
  split_lines ("ab" +:+ String "013" (String "010" "cd") +:+
               String "010" "" +:+ String "013" "e") =
  ["ab"; "cd"; String "013" "e"].
Proof. reflexivity. Qed.

Example split_lines_empty : split_lines "" = [""].
Proof. reflexivity. Qed.

Lemma split_lines_not_nil s : split_lines s ≠ [].
Proof.
  induction s as [|c s IH]; simpl; [done|].
  case_bool_decide; [done|]. destruct s as [|c' s']; [done|].
  destruct (_ && _); [done|]. by destruct (split_lines (String c' s')).
Qed.

(** An error that spans a line end: the token of the diagnostic ends on the
    next line, at the column of the error plus the length of its last line. *)
Example transformLexerError_two_lines :
  transformLexerError
    {| error_message := "unterminated"; error_offset := 4; error_length := 5;
       error_line := 3; error_column := 7 |}
    [createTokenInstance Identifier "foo" 0 2 3 3 3 5;
     createTokenInstance WhiteSpace " " 3 3 3 3 6 6]
    ("foo ab" +:+ String "010" "cd e") =
  MismatchedTokenException (LexerMessage "unterminated")
    (createTokenInstance Unknown ("ab" +:+ String "010" "cd") 4 9 3 4 7 9)
    (PreviousToken (Some (createTokenInstance WhiteSpace " " 3 3 3 3 6 6))).
Proof. reflexivity. Qed.

Lemma split_lines_length s : length (split_lines s) = S (count_lf s).
Proof.
  induction s as [|c s IH]; [done|].
  cbn [split_lines count_lf]. case_bool_decide as Hc; [simpl; by rewrite IH|].
  destruct s as [|c' s']; [done|].
  destruct (bool_decide (c = "013"%char) && bool_decide (c' = "010"%char))
    eqn:E.
  - apply andb_prop in E as [_ Hc'%bool_decide_eq_true]. subst c'.
    cbn [split_lines count_lf] in IH |- *.
    rewrite bool_decide_true in IH |- * by done. simpl in IH |- *. lia.
  - destruct (split_lines (String c' s')) as [|l ls] eqn:El.
    + by apply split_lines_not_nil in El.
    + simpl in IH |- *. lia.
Qed.

Lemma split_lines_one s : count_lf s = 0 → split_lines s = [s].
Proof.
  induction s as [|c s IH]; [done|].
  cbn [split_lines count_lf]. case_bool_decide as Hc; [done|]. simpl.
  intros Hs. destruct s as [|c' s']; [done|].
  destruct (bool_decide (c = "013"%char) && bool_decide (c' = "010"%char))
    eqn:E.
  - apply andb_prop in E as [_ Hc'%bool_decide_eq_true]. subst c'.
    cbn [count_lf] in Hs. by rewrite bool_decide_true in Hs.
  - by rewrite IH.
Qed.

Lemma length_substring n m s :
  String.length (substring n m s) = Nat.min m (String.length s - n).
Proof.
  revert n m.
  induction s as [|c s IH]; intros [|n] [|m]; cbn [substring String.length];
    rewrite ?IH; lia.
Qed.

Lemma find_none_offset (tokens : list Token) :
  find (ends_before 0) tokens = None.
Proof.
  induction tokens as [|t tokens IH]; [done|]. simpl.
  unfold ends_before at 1. destruct (endOffset t); [done|].
  by rewrite bool_decide_false by lia.
Qed.

Lemma after_last_lf_none s : count_lf s = 0 → after_last_lf s = s.
Proof.
  destruct s as [|c s]; [done|]. cbn [count_lf after_last_lf].
  case_bool_decide as Hc; [done|]. intros Hs. simpl in Hs.
  by rewrite !bool_decide_true by done.
Qed.

Lemma last_cons_ne {A} (a : A) l d : l ≠ [] → List.last (a :: l) d = List.last l d.
Proof. by destruct l. Qed.

(** The last of the lines of a text is what follows its last line feed. *)
Lemma last_split_lines s :
  List.last (split_lines s) EmptyString = after_last_lf s.
Proof.
  induction s as [|c s IH]; [done|].
  cbn [split_lines after_last_lf]. case_bool_decide as Hc.
  - rewrite last_cons_ne by apply split_lines_not_nil. rewrite IH.
    case_bool_decide as Hs; [by apply after_last_lf_none | done].
  - destruct s as [|c' s']; [done|].
    destruct (bool_decide (c = "013"%char) && bool_decide (c' = "010"%char))
      eqn:E.
    + apply andb_prop in E as [_ Hc'%bool_decide_eq_true]. subst c'.
      rewrite last_cons_ne by apply split_lines_not_nil.
      cbn [count_lf]. rewrite (bool_decide_true ("010"%char = "010"%char))
        by done.
      rewrite bool_decide_false by (simpl; lia).
      rewrite <- IH. cbn [split_lines].
      rewrite bool_decide_true by done.
      by rewrite last_cons_ne by apply split_lines_not_nil.
    + destruct (decide (count_lf (String c' s') = 0)) as [Hs|Hs].
      * rewrite bool_decide_true by done. by rewrite split_lines_one.
      * rewrite bool_decide_false by done.
        pose proof (split_lines_length (String c' s')) as Hlen.
        destruct (split_lines (String c' s')) as [|l [|l' ls]];
          cbn [length] in Hlen; [lia..|]. by rewrite <- IH.
Qed.

Lemma ends_before_spec offset t :
  ends_before offset t = true ↔ ends_right_before offset t.
Proof.
  unfold ends_before, ends_right_before. destruct (endOffset t) as [|n].
  - split; [done | by intros (k & ? & _)].
  - rewrite bool_decide_eq_true. split; [by exists n|].
    by intros (k & [= ->] & ?).
Qed.

(** [find] returns the first token that ends right before the offset. *)
Lemma find_first_ending_before offset tokens :
  first_ending_before offset tokens (find (ends_before offset) tokens).
Proof.
  induction tokens as [|t tokens IH]; simpl; [by constructor|].
  destruct (ends_before offset t) eqn:E.
  - exists [], tokens. split_and!; [done | by apply ends_before_spec |
                                    by constructor].
  - assert (¬ ends_right_before offset t) as Ht.
    { rewrite <- ends_before_spec. by rewrite E. }
    destruct (find (ends_before offset) tokens) as [p|].
    + destruct IH as (before & after & -> & Hp & Hbefore).
      exists (t :: before), after. split_and!; [done..|by constructor].
    + by constructor.
Qed.

(** What [transformLexerError] returns is the diagnostic of the error. *)
Lemma transformLexerError_diagnoses error tokens text :
  diagnoses tokens text error (transformLexerError error tokens text).
Proof.
  exists (find (ends_before (error_offset error)) tokens).
  split; [apply find_first_ending_before|].
  unfold transformLexerError, rejected_token, rejected_text, slice.
  replace (error_offset error + error_length error - error_offset error)
    with (error_length error) by lia.
  rewrite split_lines_length, last_split_lines.
  do 3 f_equal. f_equal. lia.
Qed.

(** ** The combinators consume and terminate *)

Lemma LAtype_nil : LAtype [] = EOF.
Proof. reflexivity. Qed.

Lemma CONSUME_Ok T ts t r :
  CONSUME T ts = Ok t r → LAtype ts = T ∧ t = LA1 ts ∧ r = tail ts.
Proof. unfold CONSUME. case_decide; naive_solver. Qed.

Lemma CONSUME_eq T ts : LAtype ts = T → CONSUME T ts = Ok (LA1 ts) (tail ts).
Proof. intros HT. unfold CONSUME. by rewrite decide_True. Qed.

Lemma length_tail_le (ts : list Token) : length (tail ts) ≤ length ts.
Proof. destruct ts; simpl; lia. Qed.

Lemma bind_Ok {A B} (p : P A) (k : A → P B) ts b r :
  bind p k ts = Ok b r ↔ ∃ a ts', p ts = Ok a ts' ∧ k a ts' = Ok b r.
Proof.
  unfold bind. destruct (p ts) as [a ts'| |]; split.
  - eauto.
  - by intros (? & ? & [= <- <-] & ?).
  - done.
  - by intros (? & ? & ? & _).
  - done.
  - by intros (? & ? & ? & _).
Qed.

Lemma shrinks_ret {A} (a : A) : shrinks (ret a).
Proof. intros ts a' r [= _ <-]. done. Qed.

Lemma shrinks_bind {A B} (p : P A) (k : A → P B) :
  shrinks p → (∀ a, shrinks (k a)) → shrinks (bind p k).
Proof.
  intros Hp Hk ts b r (a & ts' & H1 & H2)%bind_Ok.
  apply Hp in H1. apply Hk in H2. lia.
Qed.

Lemma shrinks_CONSUME T : shrinks (CONSUME T).
Proof. intros ts t r (_ & _ & ->)%CONSUME_Ok. apply length_tail_le. Qed.

Lemma advances_CONSUME T : T ≠ EOF → advances (CONSUME T).
Proof.
  intros HT ts t r (HL & _ & ->)%CONSUME_Ok.
  destruct ts; simpl; [by rewrite LAtype_nil in HL; subst | lia].
Qed.

Lemma shrinks_SUBRULE {A} (rule : BaseRule A) : shrinks (SUBRULE rule).
Proof.
  intros ts a r. unfold SUBRULE. destruct (rule ts); [|done].
  intros [= _ <-]. rewrite length_drop. lia.
Qed.

Lemma shrinks_OPTION {A} first (body : P A) :
  shrinks body → shrinks (OPTION first body).
Proof.
  intros Hb ts a r. unfold OPTION. destruct (first _).
  - apply shrinks_bind; [done | intros; apply shrinks_ret].
  - intros [= _ <-]. done.
Qed.

Lemma shrinks_OR {A} (alts : list (Alt A)) :
  Forall (fun a => shrinks (ALT a)) alts → shrinks (OR alts).
Proof.
  induction 1 as [|a alts Ha _ IH]; intros ts b r; simpl; [done |].
  destruct (_ && _); [apply Ha | apply IH].
Qed.

Lemma shrinks_MANY_loop {St} n enter (DEF : St → P St) s ts s' r :
  (∀ s, shrinks (DEF s)) →
  MANY_loop n enter DEF s ts = Ok s' r → length r ≤ length ts.
Proof.
  intros HD. revert s ts. induction n as [|n IH]; intros s ts; simpl.
  - destruct (enter s ts); [done | by intros [= _ <-]].
  - destruct (enter s ts); [| by intros [= _ <-]].
    destruct (DEF s ts) as [s1 ts1| |] eqn:E; [|done..].
    apply HD in E. case_bool_decide as Hlt.
    + intros Hr%IH. lia.
    + intros [= _ <-]. done.
Qed.

Lemma shrinks_MANY {St} enter (DEF : St → P St) s :
  (∀ s, shrinks (DEF s)) → shrinks (MANY enter DEF s).
Proof. intros HD ts s' r. unfold MANY. by apply shrinks_MANY_loop. Qed.

Lemma shrinks_AT_LEAST_ONE first body :
  shrinks body → shrinks (AT_LEAST_ONE first body).
Proof.
  intros Hb ts a r. unfold AT_LEAST_ONE.
  destruct (first _); [|done].
  destruct (body ts) as [[] ts1| |] eqn:E; [|done..].
  apply Hb in E. case_bool_decide as Hlt.
  - intros H. apply shrinks_MANY in H; [lia | by intros].
  - intros ?; by simplify_eq.
Qed.

Lemma answers_ret {A} k (a : A) : answers k (ret a).
Proof. by intros ts _. Qed.

Lemma answers_bind {A B} k (p : P A) (f : A → P B) :
  answers k p → shrinks p → (∀ a, answers k (f a)) → answers k (bind p f).
Proof.
  intros Hp Hs Hf ts Hk. unfold bind.
  destruct (p ts) as [a ts'| |] eqn:E; [|done|by apply Hp in E].
  apply Hf. apply Hs in E. lia.
Qed.

Lemma answers_CONSUME k T : answers k (CONSUME T).
Proof. intros ts _. unfold CONSUME. by case_decide. Qed.

Lemma answers_SUBRULE {A} k (rule : BaseRule A) : answers k (SUBRULE rule).
Proof. intros ts _. unfold SUBRULE. by destruct (rule ts). Qed.

Lemma answers_OPTION {A} k first (body : P A) :
  answers k body → answers k (OPTION first body).
Proof.
  intros Hb ts Hk. unfold OPTION. destruct (first _); [|done].
  unfold bind. destruct (body ts) eqn:E; [done..|by apply Hb in E].
Qed.

Lemma answers_OR {A} k (alts : list (Alt A)) :
  Forall (fun a => answers k (ALT a)) alts → answers k (OR alts).
Proof.
  induction 1 as [|a alts Ha _ IH]; intros ts Hk; simpl; [done |].
  destruct (_ && _); [by apply Ha | by apply IH].
Qed.

Lemma answers_MANY_loop {St} k n enter (DEF : St → P St) s ts :
  (∀ s, answers k (DEF s)) → (∀ s, shrinks (DEF s)) →
  length ts < n → length ts ≤ k →
  MANY_loop n enter DEF s ts ≠ OutOfFuel.
Proof.
  intros HD HS. revert s ts. induction n as [|n IH]; intros s ts Hn Hk; [lia|].
  simpl. destruct (enter s ts); [|done].
  destruct (DEF s ts) as [s1 ts1| |] eqn:E; [|done|by apply HD in E].
  apply HS in E. case_bool_decide; [|done]. apply IH; lia.
Qed.

Lemma answers_MANY {St} k enter (DEF : St → P St) s :
  (∀ s, answers k (DEF s)) → (∀ s, shrinks (DEF s)) →
  answers k (MANY enter DEF s).
Proof. intros HD HS ts Hk. unfold MANY. apply (answers_MANY_loop k); auto. Qed.

Lemma answers_AT_LEAST_ONE k first body :
  answers k body → shrinks body → answers k (AT_LEAST_ONE first body).
Proof.
  intros Hb Hs ts Hk. unfold AT_LEAST_ONE. destruct (first _); [|done].
  destruct (body ts) as [[] ts1| |] eqn:E; [|done|by apply Hb in E].
  apply Hs in E. case_bool_decide; [|done].
  apply (answers_MANY k); [by intros | by intros | lia].
Qed.

(** The bound of the loop plays no part in its result. *)
Lemma MANY_loop_fuel {St} n m enter (DEF : St → P St) s ts :
  length ts < n → length ts < m →
  MANY_loop n enter DEF s ts = MANY_loop m enter DEF s ts.
Proof.
  revert m s ts. induction n as [|n IH]; intros [|m] s ts Hn Hm; try lia.
  simpl. destruct (enter s ts); [|done].
  destruct (DEF s ts) as [s1 ts1| |]; [|done..].
  case_bool_decide; [|done]. apply IH; lia.
Qed.

(** [MANY] is its own loop: one iteration, then [MANY] again. *)
Lemma MANY_unfold {St} enter (DEF : St → P St) s ts :
  MANY enter DEF s ts =
  if enter s ts then
    match DEF s ts with
    | Ok s' ts' =>
        if bool_decide (length ts' < length ts) then MANY enter DEF s' ts'
        else Ok s' ts'
    | Throw e => Throw e
    | OutOfFuel => OutOfFuel
    end
  else Ok s ts.
Proof.
  unfold MANY.
  change (MANY_loop (S (length ts)) enter DEF s ts) with
    (if enter s ts then
       match DEF s ts with
       | Ok s' ts' =>
           if bool_decide (length ts' < length ts)
           then MANY_loop (length ts) enter DEF s' ts'
           else Ok s' ts'
       | Throw e => Throw e
       | OutOfFuel => OutOfFuel
       end
     else Ok s ts).
  destruct (enter s ts); [|done].
  destruct (DEF s ts) as [s1 ts1| |]; [|done..].
  case_bool_decide; [|done]. apply MANY_loop_fuel; lia.
Qed.

(** ** Loops fail as soon as an iteration does *)

Lemma MANY_iterates {St} enter (DEF : St → P St) s ts s' ts' :
  iterates enter DEF s ts s' ts' →
  MANY enter DEF s ts = MANY enter DEF s' ts'.
Proof.
  induction 1 as [|s ts s1 ts1 s' ts' He HD Hlt _ IH]; [done|].
  rewrite MANY_unfold, He, HD. by rewrite bool_decide_true.
Qed.

(** The exception of an iteration is the exception of the loop, whatever the
    iterations before it returned. *)
Lemma MANY_throws {St} enter (DEF : St → P St) s ts s' ts' e :
  iterates enter DEF s ts s' ts' →
  enter s' ts' = true → DEF s' ts' = Throw e →
  MANY enter DEF s ts = Throw e.
Proof.
  intros Hit He HD. rewrite (MANY_iterates _ _ _ _ _ _ Hit).
  by rewrite MANY_unfold, He, HD.
Qed.

(** A loop throws only what one of its iterations throws. *)
Lemma MANY_Throw_inv {St} enter (DEF : St → P St) s ts e :
  MANY enter DEF s ts = Throw e →
  ∃ s' ts', iterates enter DEF s ts s' ts' ∧
            enter s' ts' = true ∧ DEF s' ts' = Throw e.
Proof.
  remember (length ts) as n eqn:Hn. revert s ts Hn.
  induction n as [n IH] using lt_wf_ind. intros s ts -> Hrun.
  rewrite MANY_unfold in Hrun.
  destruct (enter s ts) eqn:He; [|done].
  destruct (DEF s ts) as [s1 ts1|e'|] eqn:HD; [| |done].
  - case_bool_decide as Hlt; [|done].
    destruct (IH _ Hlt s1 ts1 eq_refl Hrun) as (s' & ts' & Hit & He' & HD').
    exists s', ts'. split; [|done]. by eapply iterates_step.
  - injection Hrun as ->. exists s, ts. split; [constructor|done].
Qed.

(** A loop returns where its iterations have got to and it may not, or does
    not, go on. *)
Lemma MANY_Ok_inv {St} enter (DEF : St → P St) s ts s' r :
  MANY enter DEF s ts = Ok s' r →
  ∃ s1 ts1, iterates enter DEF s ts s1 ts1 ∧
            ((s' = s1 ∧ r = ts1 ∧ enter s1 ts1 = false) ∨
             (enter s1 ts1 = true ∧ DEF s1 ts1 = Ok s' r ∧
              ¬ length r < length ts1)).
Proof.
  remember (length ts) as n eqn:Hn. revert s ts Hn.
  induction n as [n IH] using lt_wf_ind. intros s ts -> Hrun.
  rewrite MANY_unfold in Hrun.
  destruct (enter s ts) eqn:He.
  - destruct (DEF s ts) as [s1 ts1|e'|] eqn:HD; [|done..].
    case_bool_decide as Hlt.
    + destruct (IH _ Hlt s1 ts1 eq_refl Hrun) as (s2 & ts2 & Hit & H).
      exists s2, ts2. split; [|done]. by eapply iterates_step.
    + injection Hrun as <- <-. exists s, ts. split; [constructor|].
      by right.
  - injection Hrun as <- <-. exists s, ts. split; [constructor|]. by left.
Qed.

Lemma yields_ret {A} (Q : A → Prop) a : Q a → yields Q (ret a).
Proof. by intros Ha ts a' r [= <- _]. Qed.

Lemma yields_bind {A B} (R : A → Prop) (Q : B → Prop) (p : P A) (k : A → P B) :
  yields R p → (∀ a, R a → yields Q (k a)) → yields Q (bind p k).
Proof.
  intros Hp Hk ts b r (a & ts' & H1 & H2)%bind_Ok.
  apply Hp in H1. by apply (Hk a H1) in H2.
Qed.

Lemma yields_any {A} (p : P A) : yields (fun _ => True) p.
Proof. by intros ts a r _. Qed.

Lemma yields_OR {A} (Q : A → Prop) (alts : list (Alt A)) :
  Forall (fun a => yields Q (ALT a)) alts → yields Q (OR alts).
Proof.
  induction 1 as [|a alts Ha _ IH]; intros ts b r; simpl; [done |].
  destruct (_ && _); [apply Ha | apply IH].
Qed.

Lemma yields_MANY_loop {St} (I : St → Prop) n enter (DEF : St → P St) :
  (∀ s, I s → yields I (DEF s)) →
  ∀ s ts s' r, I s → MANY_loop n enter DEF s ts = Ok s' r → I s'.
Proof.
  intros HD. induction n as [|n IH]; intros s ts s' r Hs; simpl.
  - destruct (enter s ts); [done | by intros [= <- _]].
  - destruct (enter s ts); [| by intros [= <- _]].
    destruct (DEF s ts) as [s1 ts1| |] eqn:E; [|done..].
    apply (HD s Hs) in E. case_bool_decide.
    + by apply IH.
    + by intros [= <- _].
Qed.

Lemma yields_MANY {St} (I : St → Prop) enter (DEF : St → P St) s :
  I s → (∀ s, I s → yields I (DEF s)) → yields I (MANY enter DEF s).
Proof.
  intros Hs HD ts s' r. unfold MANY. by apply (yields_MANY_loop I).
Qed.

(** ** The bounds do not matter *)

Lemma refines_refl {A} (p : P A) : refines p p.
Proof. by intros ts _. Qed.

Lemma refines_bind {A B} (p q : P A) (f g : A → P B) :
  refines p q → (∀ a, refines (f a) (g a)) → refines (bind p f) (bind q g).
Proof.
  intros Hp Hf ts. unfold bind. intros H.
  rewrite Hp by (by destruct (p ts)).
  destruct (p ts) as [a ts'| |]; [|done..]. by apply Hf.
Qed.

Lemma refines_OPTION {A} first (p q : P A) :
  refines p q → refines (OPTION first p) (OPTION first q).
Proof.
  intros Hp ts. unfold OPTION. destruct (first _); [|done].
  apply refines_bind; [done | intros; apply refines_refl].
Qed.

Lemma refines_OR_cons {A} g f (p q : P A) alts alts' :
  refines p q → refines (OR alts) (OR alts') →
  refines (OR (mkAlt g f p :: alts)) (OR (mkAlt g f q :: alts')).
Proof.
  intros Hp Ha ts. simpl. destruct (_ && _); [apply Hp | apply Ha].
Qed.

Lemma refines_MANY_loop {St} n enter (DEF DEF' : St → P St) :
  (∀ s, refines (DEF s) (DEF' s)) →
  ∀ s, refines (MANY_loop n enter DEF s) (MANY_loop n enter DEF' s).
Proof.
  intros HD. induction n as [|n IH]; intros s ts; simpl; [done|].
  destruct (enter s ts); [|done]. intros H.
  rewrite HD by (by destruct (DEF s ts)).
  destruct (DEF s ts) as [s1 ts1| |]; [|done..].
  case_bool_decide; [|done]. by apply IH.
Qed.

Lemma refines_MANY {St} enter (DEF DEF' : St → P St) s :
  (∀ s, refines (DEF s) (DEF' s)) →
  refines (MANY enter DEF s) (MANY enter DEF' s).
Proof. intros HD ts. unfold MANY. by apply refines_MANY_loop. Qed.

Ltac refines_step :=
  lazymatch goal with
  | |- refines (bind _ _) (bind _ _) => apply refines_bind; [| intros ?]
  | |- refines (OPTION _ _) (OPTION _ _) => apply refines_OPTION
  | |- refines (MANY _ _ _) (MANY _ _ _) => apply refines_MANY; intros ?
  | |- refines (OR (_ :: _)) (OR (_ :: _)) => apply refines_OR_cons
  | |- refines ?p ?p => apply refines_refl
  | |- _ => assumption
  end.

Create HintDb rules.

#[export] Hint Resolve shrinks_ret shrinks_CONSUME shrinks_SUBRULE
  answers_ret answers_CONSUME answers_SUBRULE : rules.

(** Goals [shrinks p] and [answers k p], by the shape of [p]. *)
Ltac rule_step :=
  lazymatch goal with
  | |- shrinks (bind _ _) => apply shrinks_bind; [| intros ?]
  | |- shrinks (OPTION _ _) => apply shrinks_OPTION
  | |- shrinks (AT_LEAST_ONE _ _) => apply shrinks_AT_LEAST_ONE
  | |- shrinks (MANY _ _ _) => apply shrinks_MANY; intros ?
  | |- shrinks (OR _) =>
      apply shrinks_OR; repeat apply Forall_cons_2; [.. | apply Forall_nil_2];
      cbv beta iota delta [ALT]
  | |- answers _ (bind _ _) => apply answers_bind; [| | intros ?]
  | |- answers _ (OPTION _ _) => apply answers_OPTION
  | |- answers _ (AT_LEAST_ONE _ _) => apply answers_AT_LEAST_ONE
  | |- answers _ (MANY _ _ _) => apply answers_MANY; intros ?
  | |- answers _ (OR _) =>
      apply answers_OR; repeat apply Forall_cons_2; [.. | apply Forall_nil_2];
      cbv beta iota delta [ALT]
  | |- _ => solve [auto with rules]
  end.

Ltac rule_solve := repeat rule_step.

Section Termination.

Context {Number : Type} {Base : BaseParser Number}.

#[local] Abbreviation Node := (Node Number).

Lemma shrinks_lineSpace : shrinks lineSpace.
Proof. unfold lineSpace. rule_solve. Qed.

Lemma shrinks_nodeTerminator : shrinks nodeTerminator.
Proof. unfold nodeTerminator. rule_solve. Qed.

Lemma shrinks_propertyOrArgument : shrinks propertyOrArgument.
Proof. unfold propertyOrArgument, optSpace. rule_solve. Qed.

#[local] Hint Resolve shrinks_lineSpace shrinks_nodeTerminator
  shrinks_propertyOrArgument : rules.

Lemma shrinks_node_end (n : Node) : shrinks (node_end n).
Proof.
  intros ts a r. unfold node_end. case_bool_decide.
  - apply (shrinks_bind nodeTerminator (fun _ => ret n)); auto with rules.
  - apply shrinks_ret.
Qed.

Lemma shrinks_node_entry (nc : P (list Node)) s :
  shrinks nc → shrinks (node_entry nc s).
Proof. intros Hnc. unfold node_entry, commented, optSpace. rule_solve. Qed.

#[local] Hint Resolve shrinks_node_end shrinks_node_entry : rules.

Lemma shrinks_node (nc : P (list Node)) : shrinks nc → shrinks (node nc).
Proof. intros Hnc. unfold node, node_entries, optSpace. rule_solve. Qed.

Lemma shrinks_nodeChildren (ns : P (list Node)) :
  shrinks ns → shrinks (nodeChildren ns).
Proof. intros Hns. unfold nodeChildren. rule_solve. Qed.

Lemma shrinks_nodes_item (nd : P Node) acc :
  shrinks nd → shrinks (nodes_item nd acc).
Proof. intros Hnd. unfold nodes_item. rule_solve. Qed.

Lemma shrinks_nodes d : shrinks (nodes d).
Proof.
  induction d as [|d IH]; [done|]. simpl.
  apply shrinks_MANY. intros acc.
  by apply shrinks_nodes_item, shrinks_node, shrinks_nodeChildren.
Qed.

Lemma answers_lineSpace k : answers k lineSpace.
Proof. unfold lineSpace. rule_solve. Qed.

Lemma answers_nodeTerminator k : answers k nodeTerminator.
Proof. unfold nodeTerminator. rule_solve. Qed.

Lemma answers_propertyOrArgument k : answers k propertyOrArgument.
Proof. unfold propertyOrArgument, optSpace. rule_solve. Qed.

#[local] Hint Resolve answers_lineSpace answers_nodeTerminator
  answers_propertyOrArgument : rules.

Lemma answers_node_end k (n : Node) : answers k (node_end n).
Proof.
  intros ts Hk. unfold node_end. case_bool_decide; [|done].
  apply (answers_bind k nodeTerminator (fun _ => ret n)); auto with rules.
Qed.

Lemma answers_node_entry k (nc : P (list Node)) s :
  shrinks nc → answers k nc → answers k (node_entry nc s).
Proof.
  intros Hs Hnc. unfold node_entry, commented, optSpace. rule_solve.
Qed.

#[local] Hint Resolve answers_node_end answers_node_entry : rules.

Lemma answers_node k (nc : P (list Node)) :
  shrinks nc → answers k nc → answers k (node nc).
Proof. intros Hs Hnc. unfold node, node_entries, optSpace. rule_solve. Qed.

(** A children block starts with a brace, so the nodes inside it are read
    from fewer tokens than the block. *)
Lemma answers_nodeChildren k (ns : P (list Node)) :
  (∀ ts, length ts < k → ns ts ≠ OutOfFuel) → answers k (nodeChildren ns).
Proof.
  intros Hns ts Hk. unfold nodeChildren, bind, ret.
  destruct (CONSUME LeftBrace ts) as [t ts1| |] eqn:E1;
    [|done|by apply (answers_CONSUME k) in E1].
  apply advances_CONSUME in E1; [|done].
  destruct (ns ts1) as [c ts2| |] eqn:E2; [|done|apply Hns in E2; [done|lia]].
  destruct (CONSUME RightBrace ts2) eqn:E3; [done..|].
  by apply (answers_CONSUME (length ts2)) in E3.
Qed.

Lemma answers_nodes_item k (nd : P Node) acc :
  shrinks nd → answers k nd → answers k (nodes_item nd acc).
Proof. intros Hs Hnd. unfold nodes_item. rule_solve. Qed.

Lemma answers_nodes d : ∀ ts, length ts < d → nodes d ts ≠ OutOfFuel.
Proof.
  induction d as [|d IH]; intros ts Hd; [lia|].
  assert (shrinks (node (nodeChildren (nodes d)))) as Hs
    by apply shrinks_node, shrinks_nodeChildren, shrinks_nodes.
  assert (answers d (nodes (S d))) as Ha; [|apply Ha; lia].
  simpl. apply answers_MANY; intros acc.
  - apply answers_nodes_item; [done|].
    apply answers_node; [apply shrinks_nodeChildren, shrinks_nodes|].
    by apply answers_nodeChildren.
  - by apply shrinks_nodes_item.
Qed.

(** [document] returns a document or throws, on every token vector. *)
Lemma document_total ts : document ts ≠ OutOfFuel.
Proof.
  unfold document.
  enough (∀ d, answers d
            (_ <- OPTION (only BOM) (CONSUME BOM) ;;
             nodes' <- nodes (S d) ;; _ <- CONSUME EOF ;; ret nodes')) as H
    by (by apply H).
  intros d. rule_solve.
  - intros ts' Hd. apply answers_nodes. lia.
  - apply shrinks_nodes.
Qed.

End Termination.

(** ** The depth of a document *)

Section Depth.

Context {Number : Type} {Base : BaseParser Number}.

#[local] Abbreviation Node := (Node Number).

Lemma refines_node_entry (nc nc' : P (list Node)) s :
  refines nc nc' → refines (node_entry nc s) (node_entry nc' s).
Proof. intros H. unfold node_entry, commented. repeat refines_step. Qed.

Lemma refines_node (nc nc' : P (list Node)) :
  refines nc nc' → refines (node nc) (node nc').
Proof.
  intros H. unfold node, node_entries. repeat refines_step.
  by apply refines_node_entry.
Qed.

Lemma refines_nodeChildren (ns ns' : P (list Node)) :
  refines ns ns' → refines (nodeChildren ns) (nodeChildren ns').
Proof. intros H. unfold nodeChildren. repeat refines_step. Qed.

Lemma refines_nodes_loop (nd nd' : P Node) acc :
  refines nd nd' → refines (nodes_loop nd acc) (nodes_loop nd' acc).
Proof. intros H. unfold nodes_loop, nodes_item. repeat refines_step. Qed.

Lemma refines_nodes_S d : refines (nodes d) (nodes (S d)).
Proof.
  induction d as [|d IH]; [by intros ts|].
  change (refines (nodes_loop (node (nodeChildren (nodes d))) [])
            (nodes_loop (node (nodeChildren (nodes (S d)))) [])).
  by apply refines_nodes_loop, refines_node, refines_nodeChildren.
Qed.

Lemma refines_nodes d d' : d ≤ d' → refines (nodes d) (nodes d').
Proof.
  induction 1 as [|d' _ IH]; [apply refines_refl|].
  intros ts H. rewrite <- (IH ts H). apply refines_nodes_S. by rewrite IH.
Qed.

(** A larger bound on the depth gives the same document. *)
Lemma document_depth d ts : length ts < d → document_at d ts = document ts.
Proof.
  intros Hd. unfold document.
  assert (refines (document_at (S (length ts))) (document_at d)) as H.
  { unfold document_at. repeat refines_step. apply refines_nodes. lia. }
  apply H. apply document_total.
Qed.

End Depth.

(** ** The tags stay aligned *)

Section Alignment.

Context {Number : Type} {Base : BaseParser Number}.

#[local] Abbreviation Node := (Node Number).

Lemma subtree_eq (n : Node) : subtree n = n :: all_nodes (children n).
Proof.
  destruct n as [nm ps vs cs tg]. simpl. f_equal.
  unfold all_nodes. induction cs as [|c cs IH]; simpl; [done | by rewrite IH].
Qed.

Lemma all_nodes_snoc (doc : list Node) n :
  all_nodes (doc ++ [n]) = all_nodes doc ++ subtree n.
Proof. unfold all_nodes. by rewrite map_app, concat_app; simpl; rewrite app_nil_r. Qed.

Lemma obj_set_own_ne {A} isNull k k' (v : A) o :
  k' ≠ k → own (obj_set isNull k v o) !! k' = own o !! k'.
Proof.
  intros Hk. unfold obj_set. destruct (_ && _); [by destruct (isNull v)|].
  simpl. by rewrite lookup_insert_ne.
Qed.

Lemma obj_set_own {A} isNull k (v : A) o :
  k ≠ "__proto__" → own (obj_set isNull k v o) !! k = Some v.
Proof.
  intros Hk. unfold obj_set. rewrite bool_decide_false by done. simpl.
  by rewrite lookup_insert_eq.
Qed.

Lemma obj_set_dom {A} isNull k (v : A) o :
  dom (own o) ⊆ dom (own (obj_set isNull k v o)).
Proof.
  unfold obj_set. destruct (_ && _); [by destruct (isNull v)|].
  simpl. rewrite dom_insert_L. set_solver.
Qed.

Lemma aligned_strict_named tagName name' :
  aligned_strict (named_node (Number := Number) tagName name').
Proof. repeat split; simpl. set_solver. Qed.

Lemma aligned_strict_add_entry parts (n : Node) :
  aligned_strict n → aligned_strict (add_entry parts n).
Proof.
  intros [[Hlen Hdom] Hproto]. unfold add_entry.
  destruct (parts0 parts) as [k|]; repeat split; simpl.
  - done.
  - unfold obj_set at 1. rewrite Hproto, andb_true_r. simpl.
    case_bool_decide as Hk.
    + etrans; [done | apply obj_set_dom].
    + simpl. unfold obj_set. rewrite bool_decide_false by done. simpl.
      rewrite !dom_insert_L. by apply union_mono_l.
  - unfold obj_set. rewrite Hproto, andb_true_r. simpl. by case_bool_decide.
  - rewrite !length_app. simpl. lia.
  - done.
  - done.
Qed.

Lemma aligned_strict_set_children c (n : Node) :
  aligned_strict n → aligned_strict (set_children c n).
Proof. by intros [[Hlen Hdom] Hproto]. Qed.

Lemma tree_ok_eq (n : Node) :
  tree_ok n ↔ aligned_strict n ∧ forest_ok (children n).
Proof. unfold tree_ok, forest_ok. rewrite subtree_eq. apply Forall_cons. Qed.

Lemma yields_node_entry (nc : P (list Node)) s :
  yields forest_ok nc → tree_ok (the_node s) →
  yields (fun s' => tree_ok (the_node s')) (node_entry nc s).
Proof.
  intros Hnc Hs. unfold node_entry.
  apply yields_OR; repeat apply Forall_cons_2; [.. | apply Forall_nil_2];
    cbv beta iota delta [ALT].
  - apply (yields_bind (fun _ => True)); [apply yields_any|].
    intros parts _. apply yields_ret. simpl.
    apply tree_ok_eq in Hs as [Ha Hc]. apply tree_ok_eq. split.
    + by apply aligned_strict_add_entry.
    + by unfold add_entry; destruct (parts0 parts).
  - apply (yields_bind forest_ok); [done|]. intros c Hc.
    apply (yields_bind (fun _ => True)); [apply yields_any|].
    intros sp _. apply yields_ret. simpl.
    apply tree_ok_eq in Hs as [Ha _]. apply tree_ok_eq. split.
    + by apply aligned_strict_set_children.
    + done.
  - apply (yields_bind (fun _ => True)); [apply yields_any|]. intros _ _.
    apply (yields_bind (fun _ => True)); [apply yields_any|]. intros _ _.
    unfold commented.
    apply yields_OR; repeat apply Forall_cons_2; [.. | apply Forall_nil_2];
      cbv beta iota delta [ALT].
    + apply (yields_bind (fun _ => True)); [apply yields_any|].
      intros parts _. by apply yields_ret.
    + apply (yields_bind (fun _ => True)); [apply yields_any|]. intros _ _.
      apply (yields_bind (fun _ => True)); [apply yields_any|].
      intros sp _. by apply yields_ret.
Qed.

Lemma yields_node_end (n : Node) (Q : Node → Prop) :
  Q n → yields Q (node_end n).
Proof.
  intros Hn ts a r. unfold node_end. case_bool_decide.
  - apply (yields_bind (fun _ => True)); [apply yields_any|].
    intros _ _. by apply yields_ret.
  - by apply yields_ret.
Qed.

Lemma yields_node (nc : P (list Node)) :
  yields forest_ok nc → yields tree_ok (node nc).
Proof.
  intros Hnc. unfold node.
  apply (yields_bind (fun s => tree_ok (the_node s)));
    [|intros s Hs; by apply yields_node_end].
  unfold node_entries.
  apply (yields_bind (fun _ => True)); [apply yields_any|]. intros tagName _.
  apply (yields_bind (fun _ => True)); [apply yields_any|]. intros name' _.
  apply (yields_bind (fun _ => True)); [apply yields_any|]. intros space _.
  apply (yields_MANY (fun s => tree_ok (the_node s))).
  - apply tree_ok_eq. split; [apply aligned_strict_named | constructor].
  - intros s Hs. by apply yields_node_entry.
Qed.

Lemma yields_nodeChildren (ns : P (list Node)) :
  yields forest_ok ns → yields forest_ok (nodeChildren ns).
Proof.
  intros Hns. unfold nodeChildren.
  apply (yields_bind (fun _ => True)); [apply yields_any|]. intros _ _.
  apply (yields_bind forest_ok); [done|]. intros c Hc.
  apply (yields_bind (fun _ => True)); [apply yields_any|]. intros _ _.
  by apply yields_ret.
Qed.

Lemma yields_nodes_item (nd : P Node) acc :
  yields tree_ok nd → forest_ok acc → yields forest_ok (nodes_item nd acc).
Proof.
  intros Hnd Hacc. unfold nodes_item.
  apply yields_OR; repeat apply Forall_cons_2; [.. | apply Forall_nil_2];
    cbv beta iota delta [ALT].
  - do 3 (apply (yields_bind (fun _ => True)); [apply yields_any|]; intros _ _).
    by apply yields_ret.
  - apply (yields_bind (fun _ => True)); [apply yields_any|]; intros _ _.
    by apply yields_ret.
  - apply (yields_bind tree_ok); [done|]. intros n Hn. apply yields_ret.
    unfold forest_ok. rewrite all_nodes_snoc. by apply Forall_app.
Qed.

Lemma yields_nodes d : yields forest_ok (nodes d).
Proof.
  induction d as [|d IH]; [done|]. simpl.
  apply (yields_MANY forest_ok); [constructor|].
  intros acc Hacc. apply yields_nodes_item; [|done].
  by apply yields_node, yields_nodeChildren.
Qed.

Lemma yields_document : yields forest_ok document.
Proof.
  intros ts doc r. unfold document.
  apply (yields_bind (fun _ => True)); [apply yields_any|]. intros _ _.
  apply (yields_bind forest_ok); [apply yields_nodes|]. intros ns Hns.
  apply (yields_bind (fun _ => True)); [apply yields_any|]. intros _ _.
  by apply yields_ret.
Qed.

End Alignment.

(** ** The entries of a node *)

Section Entries.

Context {Number : Type} {Base : BaseParser Number}.

#[local] Abbreviation Node := (Node Number).
#[local] Abbreviation NodeState := (NodeState Number).

Lemma yields_self {A} (p : P A) : yields (fun a => ∃ ts r, p ts = Ok a r) p.
Proof. intros ts a r H. eauto. Qed.

Lemma add_entry_set_children c parts (n : Node) :
  add_entry parts (set_children c n) = set_children c (add_entry parts n).
Proof. unfold add_entry. by destruct (parts0 parts). Qed.

Lemma children_add_entry parts (n : Node) :
  children (add_entry parts n) = children n.
Proof. unfold add_entry. by destruct (parts0 parts). Qed.

Lemma add_entries_snoc (l : list (Parts Number)) parts n :
  add_entries (l ++ [parts]) n = add_entry parts (add_entries l n).
Proof. unfold add_entries. by rewrite fold_left_app. Qed.

Lemma has_entries_add tagName name' l parts (n : Node) :
  has_entries tagName name' l n →
  has_entries tagName name' (l ++ [parts]) (add_entry parts n).
Proof.
  unfold has_entries. intros Hn.
  rewrite children_add_entry, add_entries_snoc, <- add_entry_set_children.
  by rewrite <- Hn.
Qed.

Lemma has_entries_children tagName name' l c (n : Node) :
  has_entries tagName name' l n →
  has_entries tagName name' l (set_children c n).
Proof. unfold has_entries. intros Hn. by rewrite Hn at 1. Qed.

Lemma yields_entries_node_entry (nc : P (list Node)) tagName name' s :
  (∃ l, has_entries tagName name' l (the_node s) ∧ Forall parsed_entry l) →
  yields (fun s' => ∃ l, has_entries tagName name' l (the_node s') ∧
                         Forall parsed_entry l)
    (node_entry nc s).
Proof.
  intros (l & Hl & Hp). unfold node_entry, commented.
  apply yields_OR; repeat apply Forall_cons_2; [.. | apply Forall_nil_2];
    cbv beta iota delta [ALT].
  - apply (yields_bind parsed_entry); [apply yields_self|].
    intros parts Hparts. apply yields_ret. exists (l ++ [parts]). simpl.
    split; [by apply has_entries_add | by apply Forall_app; eauto].
  - apply (yields_bind (fun _ => True)); [apply yields_any | intros c _].
    apply (yields_bind (fun _ => True)); [apply yields_any | intros sp _].
    apply yields_ret. exists l. simpl.
    split; [by apply has_entries_children | done].
  - repeat first
      [ apply yields_OR; repeat apply Forall_cons_2; [.. | apply Forall_nil_2];
        cbv beta iota delta [ALT]
      | apply (yields_bind (fun _ => True)); [apply yields_any | intros ? _]
      | apply yields_ret; by exists l ].
Qed.

(** The node [node] returns is its name and tag with the entries
    [propertyOrArgument] returned for it, added in order. *)
Lemma node_has_entries (nc : P (list Node)) ts n r :
  node nc ts = Ok n r →
  ∃ tagName name' l, has_entries tagName name' l n ∧ Forall parsed_entry l.
Proof.
  unfold node, node_entries.
  intros (s & ts4 & H & Hend)%bind_Ok.
  apply bind_Ok in H as (tagName & ts1 & _ & H).
  apply bind_Ok in H as (name' & ts2 & _ & H).
  apply bind_Ok in H as (space & ts3 & _ & H).
  exists tagName, name'.
  apply (yields_MANY
           (fun s' => ∃ l, has_entries tagName name' l (the_node s') ∧
                           Forall parsed_entry l)) in H.
  - revert Hend.
    by apply (yields_node_end (the_node s)
                (fun n' => ∃ l, has_entries tagName name' l n' ∧
                                Forall parsed_entry l)).
  - exists []. by split.
  - intros s' Hs'. by apply yields_entries_node_entry.
Qed.

End Entries.

(** ** The entry point *)

Section EntryPoint.

Context {Number : Type} {Base : BaseParser Number} {Lex : Lexer}.

(** [parse] returns on every text, from every state of the shared parser. *)
Lemma parse_total text st : ∃ r st', parse text st = Some (r, st').
Proof.
  unfold parse. destruct (tokenize text) as [tokens errs].
  case_bool_decide; [eauto|].
  unfold invoke_document, set_input. simpl.
  destruct (document tokens) as [d rest|e|] eqn:E; simpl; [eauto..|].
  by apply document_total in E.
Qed.

(** On a text without lexing error, [parse] is [document] on its tokens,
    with what the parser saved. *)
Lemma parse_tokens text st tokens :
  tokenize text = (tokens, []) →
  parse text st =
    match document tokens with
    | Ok d rest =>
        Some (mkParseResult (Some d)
                (noted tokens ++ not_all_input_parsed rest),
              mkParserState tokens
                (noted tokens ++ not_all_input_parsed rest))
    | Throw e =>
        Some (mkParseResult None (noted tokens ++ [saved_exception tokens e]),
              mkParserState tokens
                (noted tokens ++ [saved_exception tokens e]))
    | OutOfFuel => None
    end.
Proof.
  intros Hlex. unfold parse. rewrite Hlex. simpl.
  unfold invoke_document, set_input. simpl. by destruct (document tokens).
Qed.

(** C10. Two calls of [parse] on the same text return the same result,
    whatever states the shared parser is in when they start; so does a
    second call made after the first. *)
Theorem parse_deterministic text st1 st2 :
  ∃ r st1' st2',
    parse text st1 = Some (r, st1') ∧ parse text st2 = Some (r, st2') ∧
    parse text st1' = Some (r, st1').
Proof.
  unfold parse. destruct (tokenize text) as [tokens errs].
  case_bool_decide; [by eauto 10|].
  unfold invoke_document, set_input. simpl.
  destruct (document tokens) as [d rest|e|] eqn:E; simpl.
  - eauto 10.
  - eauto 10.
  - by apply document_total in E.
Qed.

End EntryPoint.

(** ** The rules of a node, case by case *)

Section NodeRules.

Context {Number : Type} {Base : BaseParser Number}.

#[local] Abbreviation Node := (Node Number).
#[local] Abbreviation NodeState := (NodeState Number).

Lemma OR_cons {A} (a : Alt A) alts ts :
  OR (a :: alts) ts =
  if GATE a && FIRST a (LAtype ts) then ALT a ts else OR alts ts.
Proof. done. Qed.

Lemma only_eq T t : only T t = bool_decide (t = T).
Proof. done. Qed.

(** ** The end of a node *)

Lemma node_end_brace (n : Node) ts :
  LAtype ts = RightBrace → node_end n ts = Ok n ts.
Proof. intros H. unfold node_end. by rewrite bool_decide_false by naive_solver. Qed.

Lemma node_end_terminator (n : Node) ts :
  LAtype ts ≠ RightBrace → node_end n ts = (_ <- nodeTerminator ;; ret n) ts.
Proof. intros H. unfold node_end. by rewrite bool_decide_true. Qed.

Lemma nodeTerminator_lineComment ts :
  first_lineComment (LAtype ts) = true →
  nodeTerminator ts = SUBRULE lineComment ts.
Proof. intros H. unfold nodeTerminator. rewrite OR_cons. simpl. by rewrite H. Qed.

Lemma nodeTerminator_token ts :
  first_lineComment (LAtype ts) = false →
  LAtype ts ∈ [NewLine; SemiColon; EOF] →
  nodeTerminator ts = Ok () (tail ts).
Proof.
  intros H Hin. unfold nodeTerminator. rewrite OR_cons. simpl. rewrite H.
  rewrite !only_eq. unfold bind, CONSUME, ret.
  set_unfold. destruct Hin as [->| [->| [->| []]]]; done.
Qed.

Lemma nodeTerminator_none ts :
  first_lineComment (LAtype ts) = false →
  LAtype ts ∉ [NewLine; SemiColon; EOF] →
  nodeTerminator ts = Throw (NoViableAltException (LA1 ts)).
Proof.
  intros H Hin. unfold nodeTerminator. rewrite OR_cons. simpl. rewrite H.
  rewrite !only_eq. set_unfold.
  rewrite !bool_decide_false by naive_solver. done.
Qed.


(** ** The entry loop *)

Lemma node_entry_children (nc : P (list Node)) (s : NodeState) ts :
  first_propertyOrArgument LeftBrace = false →
  childrenEnded s = false → LAtype ts = LeftBrace →
  node_entry nc s ts =
    (c <- nc ;; space <- optSpace ;;
     ret (mkNodeState (set_children c (the_node s)) true true
            (truthy space))) ts.
Proof.
  intros Hf Hc HL. unfold node_entry. rewrite !OR_cons. simpl.
  by rewrite HL, Hf, Hc, andb_false_r.
Qed.

Lemma node_entry_closed (nc : P (list Node)) (s : NodeState) ts :
  entriesEnded s = true → childrenEnded s = true →
  LAtype ts ≠ BlockComment →
  node_entry nc s ts = Throw (NoViableAltException (LA1 ts)).
Proof.
  intros He Hc HL. unfold node_entry. rewrite !OR_cons. simpl.
  rewrite He, Hc. simpl. rewrite only_eq. by rewrite bool_decide_false.
Qed.

Lemma node_entry_commented (nc : P (list Node)) (s : NodeState) ts :
  first_propertyOrArgument BlockComment = false →
  LAtype ts = BlockComment →
  node_entry nc s ts =
    (_ <- OPTION first_lineSpace lineSpace ;; commented nc s) (tail ts).
Proof.
  intros Hf HL. unfold node_entry. rewrite !OR_cons. simpl.
  rewrite HL, Hf, andb_false_r, andb_false_r. simpl.
  unfold bind at 1. by rewrite CONSUME_eq.
Qed.

Lemma commented_closed (nc : P (list Node)) (s : NodeState) ts :
  entriesEnded s = true → LAtype ts ≠ LeftBrace →
  commented nc s ts = Throw (NoViableAltException (LA1 ts)).
Proof.
  intros He HL. unfold commented. rewrite !OR_cons. simpl.
  rewrite He. simpl. rewrite only_eq. by rewrite bool_decide_false.
Qed.

Lemma commented_entry (nc : P (list Node)) (s : NodeState) ts :
  entriesEnded s = false → first_propertyOrArgument (LAtype ts) = true →
  commented nc s ts =
    (parts <- propertyOrArgument ;;
     ret (mkNodeState (the_node s) (entriesEnded s) (childrenEnded s)
            (parts3 parts))) ts.
Proof.
  intros He HL. unfold commented. rewrite !OR_cons. simpl.
  by rewrite He, HL.
Qed.

Lemma commented_children (nc : P (list Node)) (s : NodeState) ts :
  first_propertyOrArgument LeftBrace = false → LAtype ts = LeftBrace →
  commented nc s ts =
    (_ <- nc ;; space <- optSpace ;;
     ret (mkNodeState (the_node s) true (childrenEnded s) (truthy space))) ts.
Proof.
  intros Hf HL. unfold commented. rewrite !OR_cons. simpl.
  by rewrite HL, Hf, andb_false_r.
Qed.

(** The flags of the entry loop are never reset. *)
Lemma node_entry_flags (nc : P (list Node)) (s : NodeState) :
  yields (fun s' => (entriesEnded s = true → entriesEnded s' = true) ∧
                    (childrenEnded s = true → childrenEnded s' = true))
    (node_entry nc s).
Proof.
  unfold node_entry, commented.
  repeat first
    [ apply yields_OR; repeat apply Forall_cons_2; [.. | apply Forall_nil_2];
      cbv beta iota delta [ALT]
    | apply (yields_bind (fun _ => True)); [apply yields_any | intros ? _]
    | by apply yields_ret ].
Qed.

(** ** Tagged entries *)

Lemma propertyOrArgument_tagged ts :
  first_tag (LAtype ts) = true →
  propertyOrArgument ts =
    (tag' <- SUBRULE tag ;;
     _ <- optSpace ;;
     value' <- SUBRULE value ;;
     hasSpaceAfter <- optSpace ;;
     ret (mkParts None value' (Some tag') (truthy hasSpaceAfter))) ts.
Proof. intros H. unfold propertyOrArgument. rewrite OR_cons. simpl. by rewrite H. Qed.

Lemma SUBRULE_Ok {A} (rule : BaseRule A) ts a r :
  SUBRULE rule ts = Ok a r → ∃ k, rule ts = Matched a k ∧ r = drop k ts.
Proof. unfold SUBRULE. destruct (rule ts); naive_solver. Qed.

Lemma propertyOrArgument_tagged_Ok ts parts r :
  first_tag (LAtype ts) = true → propertyOrArgument ts = Ok parts r →
  ∃ t k, tag ts = Matched t k ∧ parts0 parts = None ∧ parts2 parts = Some t.
Proof.
  intros H. rewrite propertyOrArgument_tagged by done.
  intros (t & ts1 & (k & Ht & _)%SUBRULE_Ok & H1)%bind_Ok.
  apply bind_Ok in H1 as (_ & ts2 & _ & H1).
  apply bind_Ok in H1 as (v & ts3 & _ & H1).
  apply bind_Ok in H1 as (sp & ts4 & _ & [= <- _]).
  by exists t, k.
Qed.

(** ** Commented nodes *)

Lemma nodes_loop_commented (nd : P Node) acc ts sp ts1 n ts2 :
  shrinks nd →
  LAtype ts = BlockComment →
  OPTION first_lineSpace lineSpace (tail ts) = Ok sp ts1 →
  nd ts1 = Ok n ts2 →
  nodes_loop nd acc ts = nodes_loop nd acc ts2.
Proof.
  intros Hnd HL Hsp Hn. unfold nodes_loop. rewrite MANY_unfold.
  unfold first_nodes at 1. rewrite HL. simpl.
  unfold nodes_item at 1. rewrite OR_cons. simpl. rewrite HL. simpl.
  unfold bind. rewrite CONSUME_eq, Hsp, Hn by done. unfold ret.
  rewrite bool_decide_true; [done|].
  apply Hnd in Hn. apply shrinks_OPTION in Hsp; [|apply shrinks_lineSpace].
  destruct ts; [done|]. simpl in *. lia.
Qed.

(** ** Properties given twice *)

Lemma add_entry_property k parts (n : Node) :
  k ≠ "__proto__" → parts0 parts = Some k →
  own (properties (add_entry parts n)) !! k = Some (parts1 parts) ∧
  own (tags_properties (tags (add_entry parts n))) !! k = Some (parts2 parts).
Proof.
  intros Hk Hp. unfold add_entry. rewrite Hp. simpl.
  by rewrite !obj_set_own.
Qed.

Lemma add_entry_other k parts (n : Node) :
  parts0 parts ≠ Some k →
  own (properties (add_entry parts n)) !! k = own (properties n) !! k ∧
  own (tags_properties (tags (add_entry parts n))) !! k =
    own (tags_properties (tags n)) !! k.
Proof.
  intros Hp. unfold add_entry. destruct (parts0 parts) as [k'|]; [|done].
  simpl. rewrite !obj_set_own_ne; [done|congruence..].
Qed.

End NodeRules.

(** ** The rule [document] around [nodes] *)

Section DocumentRule.

Context {Number : Type} {Base : BaseParser Number}.

Lemma document_at_no_BOM d ts :
  LAtype ts ≠ BOM →
  document_at d ts =
    (nodes' <- nodes d ;; _ <- CONSUME EOF ;; ret nodes') ts.
Proof.
  intros HLA. unfold document_at, bind at 1, OPTION, only.
  by rewrite bool_decide_false.
Qed.

Lemma document_at_BOM d t ts :
  tokenType t = BOM →
  document_at d (t :: ts) =
    (nodes' <- nodes d ;; _ <- CONSUME EOF ;; ret nodes') ts.
Proof.
  intros Ht. unfold document_at, bind at 1, OPTION, only, LAtype. simpl.
  rewrite bool_decide_true by done. unfold bind at 1, CONSUME, LAtype. simpl.
  by rewrite decide_True.
Qed.

(** The token read last is the last of the tokens read. *)
Lemma LA0_app (before rest : list Token) :
  LA0 (before ++ rest) rest = List.last before END_OF_FILE.
Proof.
  unfold LA0. rewrite length_app.
  replace (length before + length rest - length rest) with (length before)
    by lia.
  destruct before as [|t before _] using rev_ind; [done|].
  rewrite length_app. cbn [length]. rewrite Nat.add_1_r, last_last.
  rewrite <- app_assoc. cbn [app]. by rewrite list_lookup_middle.
Qed.

(** [document] is [nodes], then the end of the input, on the tokens after
    a leading byte order mark. *)
Lemma document_after_BOM ts :
  document ts =
    (nodes' <- nodes (S (length ts)) ;; _ <- CONSUME EOF ;; ret nodes')
      (if decide (LAtype ts = BOM) then tail ts else ts).
Proof.
  unfold document. destruct (decide (LAtype ts = BOM)) as [HL|HL].
  - destruct ts as [|t ts]; [done|]. by apply document_at_BOM.
  - by apply document_at_no_BOM.
Qed.

(** [document] throws what [nodes] throws, or what the end of the input
    throws after [nodes] has returned. *)
Lemma document_Throw ts e :
  document ts = Throw e ↔
  nodes (S (length ts))
    (if decide (LAtype ts = BOM) then tail ts else ts) = Throw e ∨
  ∃ ns r,
    nodes (S (length ts))
      (if decide (LAtype ts = BOM) then tail ts else ts) = Ok ns r ∧
    LAtype r ≠ EOF ∧
    e = MismatchedTokenException (Expecting EOF) (LA1 r) (LastRead r).
Proof.
  rewrite document_after_BOM. unfold bind at 1.
  destruct (nodes _ _) as [ns r|e'|] eqn:E.
  - unfold bind, CONSUME, ret. destruct (decide (LAtype r = EOF)) as [HL|HL].
    + split; [done|]. intros [|(ns' & r' & [= <- <-] & ? & _)]; done.
    + split.
      * intros [= <-]. right. by exists ns, r.
      * intros [|(ns' & r' & [= <- <-] & _ & ->)]; done.
  - split; [intros [= ->]; by left|].
    intros [[= ->]|(ns' & r' & ? & _)]; done.
  - split; [done|]. intros [|(ns' & r' & ? & _)]; done.
Qed.

End DocumentRule.

(** * The claims of the specification *)

(** ** Lexing errors and grammar failures *)

(** C1. When the lexer reports at least one error, [parse] returns no
    document and one diagnostic for each error of the lexer, in order.  The
    diagnostic of an error has the message of the error and is about a
    token of type [Unknown] whose image is the rejected text, which starts
    at the offset, the line and the column of the error and ends at the
    offset after its last character, as many lines below as it has line
    feeds, at the column of the error plus the length of what follows its
    last line feed; its previous token is the first token of the lexer that
    ends right before the error, none when there is no such token.  The
    shared parser is left as it was: its input is not set and no rule is
    invoked. *)
Theorem lex_errors_short_circuit {Number} {Base : BaseParser Number}
    {Lex : Lexer} text st tokens errs :
  tokenize text = (tokens, errs) → errs ≠ [] →
  ∃ diagnostics,
    parse text st = Some (mkParseResult None diagnostics, st) ∧
    Forall2 (diagnoses tokens text) errs diagnostics.
Proof.
  intros Hlex Herrs.
  exists (map (fun error => transformLexerError error tokens text) errs).
  split.
  - unfold parse. rewrite Hlex. by rewrite bool_decide_true.
  - clear. induction errs as [|error errs IH]; simpl; constructor; [|done].
    apply transformLexerError_diagnoses.
Qed.

(** The text [foo ]], whose last character the lexer rejects. *)
Lemma lex_errors_short_circuit_witness :
  parse (Number := Z)
    (Lex := Sample.failing_lexer Sample.foo_then [Sample.unexpected_character])
    "foo ]" (mkParserState [] []) =
  Some (mkParseResult None
          [MismatchedTokenException
             (LexerMessage
                "unexpected character: ->]<- at offset: 4, skipped 1 characters.")
             (createTokenInstance Unknown "]" 4 5 1 1 5 6)
             (PreviousToken
                (Some (createTokenInstance WhiteSpace " " 3 3 1 1 4 4)))],
        mkParserState [] []) ∧
  Forall2 (diagnoses Sample.foo_then "foo ]") [Sample.unexpected_character]
    [MismatchedTokenException
       (LexerMessage
          "unexpected character: ->]<- at offset: 4, skipped 1 characters.")
       (createTokenInstance Unknown "]" 4 5 1 1 5 6)
       (PreviousToken
          (Some (createTokenInstance WhiteSpace " " 3 3 1 1 4 4)))].
Proof.
  destruct (lex_errors_short_circuit (Number := Z)
              (Lex := Sample.failing_lexer Sample.foo_then
                        [Sample.unexpected_character])
              "foo ]" (mkParserState [] []) Sample.foo_then
              [Sample.unexpected_character] eq_refl ltac:(discriminate))
    as (diagnostics & Hparse & Hdiag).
  assert (parse (Number := Z)
            (Lex := Sample.failing_lexer Sample.foo_then
                      [Sample.unexpected_character])
            "foo ]" (mkParserState [] []) =
          Some (mkParseResult None
                  [MismatchedTokenException
                     (LexerMessage
                        "unexpected character: ->]<- at offset: 4, skipped 1 characters.")
                     (createTokenInstance Unknown "]" 4 5 1 1 5 6)
                     (PreviousToken
                        (Some (createTokenInstance WhiteSpace " " 3 3 1 1
                                 4 4)))],
                mkParserState [] [])) as Hrun by reflexivity.
  rewrite Hrun in Hparse. injection Hparse as <-. by split.
Defined.

(** C2. On a text that lexes without error, the rule [document] fails in
    exactly two ways.  Either the loop of [nodes], after it has read any
    number of nodes, comes to an item that throws: the exception ends the
    loop and the rule, and the nodes read so far are dropped.  Or [nodes]
    returns and a token that is not the end of the input is left: the rule
    throws a [MismatchedTokenException] about that token, and the nodes
    that [nodes] returned are dropped.  In both cases [parse] returns no
    document and a list of diagnostics that ends with that exception, after
    what the rules of the base parser noted; and [parse] returns a document
    only when the rule returned it. *)
Theorem grammar_failure_no_document {Number} {Base : BaseParser Number}
    {Lex : Lexer} text st tokens :
  tokenize text = (tokens, []) →
  let nd := node (nodeChildren (nodes (length tokens))) in
  let ts0 := if decide (LAtype tokens = BOM) then tail tokens else tokens in
  (∀ e, document tokens = Throw e ↔
        (∃ acc ts, nodes_reached nd ts0 acc ts ∧
                   first_nodes (LAtype ts) = true ∧
                   nodes_item nd acc ts = Throw e) ∨
        (∃ acc ts, nodes_loop nd [] ts0 = Ok acc ts ∧ LAtype ts ≠ EOF ∧
                   e = MismatchedTokenException (Expecting EOF) (LA1 ts)
                         (LastRead ts))) ∧
  (∀ e, document tokens = Throw e →
        parse text st =
          Some (mkParseResult None
                  (noted tokens ++ [saved_exception tokens e]),
                mkParserState tokens
                  (noted tokens ++ [saved_exception tokens e]))) ∧
  (∀ d errs st',
     parse text st = Some (mkParseResult (Some d) errs, st') →
     ∃ r, document tokens = Ok d r).
Proof.
  intros Hlex nd ts0. split_and!.
  - intros e. rewrite document_Throw. fold ts0.
    change (nodes (S (length tokens))) with (nodes_loop nd []).
    split.
    + intros [Hrun|H]; [left|by right]. unfold nodes_loop in Hrun.
      apply MANY_Throw_inv in Hrun as (acc & ts & Hit & He & Hitem).
      by exists acc, ts.
    + intros [(acc & ts & Hit & He & Hitem)|H]; [left|by right].
      unfold nodes_loop. by apply (MANY_throws _ _ _ _ acc ts).
  - intros e He. by rewrite (parse_tokens _ _ _ Hlex), He.
  - intros d errs st'. rewrite (parse_tokens _ _ _ Hlex).
    destruct (document tokens) as [d' r|e|]; [|done..].
    intros [= <- _ _]. by exists r.
Qed.

(** The text [foo;bar {} {}], which lexes and does not parse: the second
    children block of [bar] is an exception, and the node [foo] is not
    returned. *)
Lemma grammar_failure_no_document_witness :
  document (Number := Z) Sample.foo_bar_two_blocks =
    Throw (NoViableAltException (Sample.tok LeftBrace "{")) ∧
  parse (Number := Z) (Lex := Sample.fixed_lexer Sample.foo_bar_two_blocks)
    "foo;bar {} {}" (mkParserState [] []) =
  Some (mkParseResult None [NoViableAltException (Sample.tok LeftBrace "{")],
        mkParserState Sample.foo_bar_two_blocks
          [NoViableAltException (Sample.tok LeftBrace "{")]).
Proof.
  destruct (grammar_failure_no_document (Number := Z)
              (Lex := Sample.fixed_lexer Sample.foo_bar_two_blocks)
              "foo;bar {} {}" (mkParserState [] [])
              Sample.foo_bar_two_blocks eq_refl) as (Hthrow & Hparse & _).
  assert (document (Number := Z) Sample.foo_bar_two_blocks =
          Throw (NoViableAltException (Sample.tok LeftBrace "{"))) as Hdoc.
  { apply Hthrow. left.
    exists [named_node None "foo"], (drop 2 Sample.foo_bar_two_blocks).
    split_and!; [|reflexivity..].
    eapply iterates_step; [reflexivity | reflexivity | simpl; lia |].
    constructor. }
  split; [exact Hdoc | exact (Hparse _ Hdoc)].
Defined.

(** ** Properties given twice *)

Lemma add_entries_other {Number} k (l : list (Parts Number)) n :
  Forall (fun parts => parts0 parts ≠ Some k) l →
  own (properties (add_entries l n)) !! k = own (properties n) !! k ∧
  own (tags_properties (tags (add_entries l n))) !! k =
    own (tags_properties (tags n)) !! k.
Proof.
  intros Hl. revert n. induction Hl as [|parts l Hp _ IH]; intros n; [done|].
  simpl. destruct (IH (add_entry parts n)) as [-> ->].
  by apply add_entry_other.
Qed.

(** C3. The node [node] returns has the entries [propertyOrArgument] read
    for it, added in order.  For every key but [__proto__], the last entry
    of a node with that key gives the property its value and its tag,
    whatever entries come before it and whatever entries with other keys
    come after: [node a=1 a=2] has [a] at [2] with the tag of the second
    occurrence (none), and [node a=(x)1 a=(y)2] has [a] at [2] with the tag
    [y].  The key
    [__proto__] is lost: the assignment reaches the accessor that plain
    objects inherit, which ignores numbers and strings, so
    [node __proto__=(x)1 __proto__=(y)2] has no property and no property tag
    at all. *)
Theorem duplicate_property_last_wins :
  (∀ Number (Base : BaseParser Number) nc ts (n : Node Number) r,
     node nc ts = Ok n r →
     ∃ tagName name' l,
       has_entries tagName name' l n ∧ Forall parsed_entry l) ∧
  (∀ Number tagName name' k (before later : list (Parts Number)) parts n,
     has_entries tagName name' (before ++ parts :: later) n →
     k ≠ "__proto__" → parts0 parts = Some k →
     Forall (fun parts' => parts0 parts' ≠ Some k) later →
     own (properties n) !! k = Some (parts1 parts) ∧
     own (tags_properties (tags n)) !! k = Some (parts2 parts)) ∧
  (∃ n, document (Number := Z) Sample.node_a1_a2 = Ok [n] [] ∧
        own (properties n) !! "a" = Some (VNumber 2%Z) ∧
        own (tags_properties (tags n)) !! "a" = Some None) ∧
  (∃ n, document (Number := Z) Sample.node_ax1_ay2 = Ok [n] [] ∧
        own (properties n) !! "a" = Some (VNumber 2%Z) ∧
        own (tags_properties (tags n)) !! "a" = Some (Some "y")) ∧
  (∃ n, document (Number := Z) Sample.node_proto_twice = Ok [n] [] ∧
        own (properties n) = ∅ ∧ nullProto (properties n) = false ∧
        own (tags_properties (tags n)) = ∅ ∧
        nullProto (tags_properties (tags n)) = false).
Proof.
  split_and!.
  - intros Number Base nc ts n r. apply node_has_entries.
  - intros Number tagName name' k before later parts n Hn Hk Hp Hl.
    rewrite Hn. simpl.
    unfold add_entries. rewrite fold_left_app. simpl.
    destruct (add_entries_other k later
                (add_entry parts (fold_left (fun n parts => add_entry parts n)
                                    before (named_node tagName name'))) Hl)
      as [H1 H2].
    unfold add_entries in H1, H2. rewrite H1, H2.
    by apply add_entry_property.
  - eexists. split; [reflexivity|]. split; by vm_compute.
  - eexists. split; [reflexivity|]. split; by vm_compute.
  - eexists. split; [reflexivity|]. by split_and!.
Qed.

(** ** Children blocks *)

(** C4. The children alternative of the entry loop reads the block, sets
    both [entriesEnded] and [childrenEnded] and stores the children; no
    alternative resets a flag; with both set, the loop body throws on every
    token but a block comment, so neither an entry nor a second children
    block is read; [foo {} {}] ends in that exception at the second opening
    brace and [parse] returns no document. *)
Theorem children_block_closes_node :
  (∀ Number (B : BaseParser Number) nc (s : NodeState Number) ts,
     first_propertyOrArgument LeftBrace = false →
     childrenEnded s = false → LAtype ts = LeftBrace →
     node_entry nc s ts =
       (c <- nc ;; space <- optSpace ;;
        ret (mkNodeState (set_children c (the_node s)) true true
               (truthy space))) ts) ∧
  (∀ Number (B : BaseParser Number) nc (s s' : NodeState Number) ts r,
     node_entry nc s ts = Ok s' r →
     (entriesEnded s = true → entriesEnded s' = true) ∧
     (childrenEnded s = true → childrenEnded s' = true)) ∧
  (∀ Number (B : BaseParser Number) nc (s : NodeState Number) ts,
     entriesEnded s = true → childrenEnded s = true →
     LAtype ts ≠ BlockComment →
     node_entry nc s ts = Throw (NoViableAltException (LA1 ts))) ∧
  (∀ (L : Lexer) st,
     tokenize "foo {} {}" = (Sample.foo_two_blocks, []) →
     parse (Number := Z) "foo {} {}" st =
       Some (mkParseResult None
               [NoViableAltException (Sample.tok LeftBrace "{")],
             mkParserState Sample.foo_two_blocks
               [NoViableAltException (Sample.tok LeftBrace "{")])).
Proof.
  split_and!.
  - intros. by apply node_entry_children.
  - intros * H. by apply node_entry_flags in H.
  - intros. by apply node_entry_closed.
  - intros L st Hlex. by rewrite (parse_tokens _ _ _ Hlex).
Qed.

(** [foo {} {}] with a lexer that gives its tokens. *)
Lemma children_block_closes_node_witness :
  parse (Number := Z) (Lex := Sample.fixed_lexer Sample.foo_two_blocks)
    "foo {} {}" (mkParserState [] []) =
  Some (mkParseResult None [NoViableAltException (Sample.tok LeftBrace "{")],
        mkParserState Sample.foo_two_blocks
          [NoViableAltException (Sample.tok LeftBrace "{")]).
Proof.
  exact (proj2 (proj2 (proj2 children_block_closes_node))
           (Sample.fixed_lexer Sample.foo_two_blocks) (mkParserState [] [])
           eq_refl).
Defined.

(** C5, as the claim states it, fails: with [childrenEnded] set, a block
    comment followed by a children block is read and dropped, and
    [foo {} /-{}] parses to the single node [foo]. *)
Lemma commented_children_after_children :
  childrenEnded
    (mkNodeState (named_node (Number := Z) None "foo") true true true) = true ∧
  node_entry (Number := Z) (nodeChildren (nodes 1))
    (mkNodeState (named_node None "foo") true true true)
    [Sample.tok BlockComment "/-"; Sample.tok LeftBrace "{";
     Sample.tok RightBrace "}"] =
  Ok (mkNodeState (named_node None "foo") true true false) [] ∧
  document (Number := Z) Sample.foo_block_commented_block =
  Ok [named_node None "foo"] [].
Proof. split_and!; reflexivity. Qed.

(** [foo {} /-1]: after the children block, a commented entry is an
    exception at the entry. *)
Example commented_entry_after_children :
  document (Number := Z) Sample.foo_block_commented_entry =
  Throw (NoViableAltException (Sample.tok Integer "1")).
Proof. reflexivity. Qed.

(** C5, amended. After a block comment inside a node (and optional line
    space), an entry is read and dropped only while the entries are open:
    with [entriesEnded] set, any token but an opening brace is an exception.
    A children block is read and dropped whatever [entriesEnded] and
    [childrenEnded] are; it sets [entriesEnded] and leaves [childrenEnded]
    as it was. *)
Theorem commented_entry_gating {Number} {Base : BaseParser Number}
    (nc : P (list (Node Number))) (s : NodeState Number) ts :
  (first_propertyOrArgument BlockComment = false →
   LAtype ts = BlockComment →
   node_entry nc s ts =
     (_ <- OPTION first_lineSpace lineSpace ;; commented nc s) (tail ts)) ∧
  (entriesEnded s = true → LAtype ts ≠ LeftBrace →
   commented nc s ts = Throw (NoViableAltException (LA1 ts))) ∧
  (entriesEnded s = false → first_propertyOrArgument (LAtype ts) = true →
   commented nc s ts =
     (parts <- propertyOrArgument ;;
      ret (mkNodeState (the_node s) (entriesEnded s) (childrenEnded s)
             (parts3 parts))) ts) ∧
  (first_propertyOrArgument LeftBrace = false → LAtype ts = LeftBrace →
   commented nc s ts =
     (_ <- nc ;; space <- optSpace ;;
      ret (mkNodeState (the_node s) true (childrenEnded s)
             (truthy space))) ts).
Proof.
  split_and!.
  - apply node_entry_commented.
  - apply commented_closed.
  - apply commented_entry.
  - apply commented_children.
Qed.

(** After the children block of [foo], a commented entry is refused and a
    commented children block is dropped. *)
Lemma commented_entry_gating_witness :
  commented (Number := Z) (nodeChildren (nodes 1))
    (mkNodeState (named_node None "foo") true true true)
    [Sample.tok Integer "1"] =
  Throw (NoViableAltException (Sample.tok Integer "1")) ∧
  commented (Number := Z) (nodeChildren (nodes 1))
    (mkNodeState (named_node None "foo") true true true)
    [Sample.tok LeftBrace "{"; Sample.tok RightBrace "}"] =
  Ok (mkNodeState (named_node None "foo") true true false) [].
Proof.
  split.
  - apply (commented_entry_gating (Number := Z)); [reflexivity | discriminate].
  - destruct (commented_entry_gating (Number := Z) (nodeChildren (nodes 1))
                (mkNodeState (named_node None "foo") true true true)
                [Sample.tok LeftBrace "{"; Sample.tok RightBrace "}"])
      as (_ & _ & _ & H).
    rewrite H by reflexivity. reflexivity.
Defined.

(** ** Commented nodes *)

(** C6. In a node list, when a block comment is followed by optional line
    space and a node that parses, the iteration returns the nodes read so far
    unchanged, and the list goes on after the node as if the three were not
    there. *)
Theorem commented_node_discarded {Number} {Base : BaseParser Number}
    d (acc : list (Node Number)) ts sp ts1 n ts2 :
  LAtype ts = BlockComment →
  OPTION first_lineSpace lineSpace (tail ts) = Ok sp ts1 →
  node (nodeChildren (nodes d)) ts1 = Ok n ts2 →
  nodes_item (node (nodeChildren (nodes d))) acc ts = Ok acc ts2 ∧
  nodes_loop (node (nodeChildren (nodes d))) acc ts =
    nodes_loop (node (nodeChildren (nodes d))) acc ts2.
Proof.
  intros HL Hsp Hn. split.
  - unfold nodes_item. rewrite OR_cons. simpl. rewrite HL. simpl.
    unfold bind. by rewrite CONSUME_eq, Hsp, Hn.
  - eapply nodes_loop_commented; [|done..].
    apply shrinks_node, shrinks_nodeChildren, shrinks_nodes.
Qed.

(** [/-foo 1] before [bar]: the list goes on at [bar] with no node read. *)
Lemma commented_node_discarded_witness :
  nodes_item (Number := Z) (node (nodeChildren (nodes 1))) []
    Sample.commented_foo_bar = Ok [] [Sample.tok Identifier "bar"] ∧
  nodes_loop (Number := Z) (node (nodeChildren (nodes 1))) []
    Sample.commented_foo_bar =
  nodes_loop (node (nodeChildren (nodes 1))) [] [Sample.tok Identifier "bar"].
Proof.
  eapply (commented_node_discarded (Number := Z) 1 []); reflexivity.
Defined.

(** ** Tagged entries *)

(** C7. When the next token can start a tag, what [propertyOrArgument]
    returns has no key and carries the tag that [tag] read; [node] then
    appends the value to [values] and the tag to [tags.values].  On
    [foo (u8)255] the node has the single argument [255], tagged [u8], and no
    property. *)
Theorem tagged_entry_is_argument :
  (∀ Number (Base : BaseParser Number) ts parts r (n : Node Number),
     first_tag (LAtype ts) = true →
     propertyOrArgument ts = Ok parts r →
     ∃ t k, tag ts = Matched t k ∧
            parts0 parts = None ∧ parts2 parts = Some t ∧
            add_entry parts n = push_value (parts1 parts) (Some t) n) ∧
  (∀ (L : Lexer) st,
     tokenize "foo (u8)255" = (Sample.foo_u8_255, []) →
     ∃ n st',
       parse (Number := Z) "foo (u8)255" st =
         Some (mkParseResult (Some [n]) [], st') ∧
       name n = Some "foo" ∧
       values n = [VNumber 255%Z] ∧
       tags_values (tags n) = [Some "u8"] ∧
       own (properties n) = ∅).
Proof.
  split.
  - intros Number Base ts parts r n Hf Hp.
    destruct (propertyOrArgument_tagged_Ok ts parts r Hf Hp)
      as (t & k & Ht & H0 & H2).
    exists t, k. split_and!; [done..|].
    unfold add_entry. by rewrite H0, H2.
  - intros L st Hlex. rewrite (parse_tokens _ _ _ Hlex).
    eexists _, _. split; [reflexivity|]. by split_and!.
Qed.

(** [foo (u8)255] with a lexer that gives its tokens. *)
Lemma tagged_entry_is_argument_witness :
  ∃ n st',
    parse (Number := Z) (Lex := Sample.fixed_lexer Sample.foo_u8_255)
      "foo (u8)255" (mkParserState [] []) =
      Some (mkParseResult (Some [n]) [], st') ∧
    name n = Some "foo" ∧
    values n = [VNumber 255%Z] ∧
    tags_values (tags n) = [Some "u8"] ∧
    own (properties n) = ∅.
Proof.
  exact (proj2 tagged_entry_is_argument
           (Sample.fixed_lexer Sample.foo_u8_255) (mkParserState [] [])
           eq_refl).
Defined.

(** ** Alignment of the tags *)

(** C8. In the document [parse] returns, every node, at every depth, has
    as many argument tags as arguments, and every key of its map of property
    tags is a key of its properties. *)
Theorem parsed_nodes_aligned {Number} {Base : BaseParser Number}
    {Lex : Lexer} text st r st' doc n :
  parse text st = Some (r, st') → output r = Some doc →
  n ∈ all_nodes doc → aligned n.
Proof.
  unfold parse. destruct (tokenize text) as [tokens errs].
  case_bool_decide; [by intros [= <- _]|].
  unfold invoke_document, set_input. simpl.
  destruct (document tokens) as [d rest|e|] eqn:E; simpl; [|by intros [= <- _]|done].
  intros [= <- _] [= <-] Hn. apply yields_document in E.
  unfold forest_ok in E. rewrite Forall_forall in E. by apply E.
Qed.

(** [foo 1 2 {bar}]: the two nodes of its document are aligned. *)
Lemma parsed_nodes_aligned_witness :
  parse (Number := Z) (Lex := Sample.fixed_lexer Sample.foo_1_2_bar)
    "foo 1 2 {bar}" (mkParserState [] []) =
    Some (mkParseResult (Some Sample.foo_1_2_bar_document) [],
          mkParserState Sample.foo_1_2_bar []) ∧
  Forall aligned (all_nodes Sample.foo_1_2_bar_document).
Proof.
  assert (parse (Number := Z) (Lex := Sample.fixed_lexer Sample.foo_1_2_bar)
            "foo 1 2 {bar}" (mkParserState [] []) =
          Some (mkParseResult (Some Sample.foo_1_2_bar_document) [],
                mkParserState Sample.foo_1_2_bar [])) as Hparse
    by reflexivity.
  split; [exact Hparse|].
  apply Forall_forall. intros n Hn.
  exact (parsed_nodes_aligned _ _ _ _ _ n Hparse eq_refl Hn).
Defined.

(** ** Node terminators *)

(** C9. The end of [node]: when the next token is a closing brace nothing
    is consumed; otherwise [nodeTerminator] runs, which reads a line comment,
    or exactly one token (a line end, a semicolon, the end of the input), and
    throws when the next token is none of these.  A node that [node] returns
    went through that end right after its entry loop. *)
Theorem node_terminator_mandatory {Number} {Base : BaseParser Number}
    (nc : P (list (Node Number))) (n : Node Number) ts :
  (LAtype ts = RightBrace → node_end n ts = Ok n ts) ∧
  (LAtype ts ≠ RightBrace →
     node_end n ts = (_ <- nodeTerminator ;; ret n) ts ∧
     (first_lineComment (LAtype ts) = true →
        nodeTerminator ts = SUBRULE lineComment ts) ∧
     (first_lineComment (LAtype ts) = false →
        LAtype ts ∈ [NewLine; SemiColon; EOF] →
        nodeTerminator ts = Ok () (tail ts) ∧ node_end n ts = Ok n (tail ts)) ∧
     (first_lineComment (LAtype ts) = false →
        LAtype ts ∉ [NewLine; SemiColon; EOF] →
        node_end n ts = Throw (NoViableAltException (LA1 ts)))) ∧
  (∀ r, node nc ts = Ok n r →
     ∃ s ts', node_entries nc ts = Ok s ts' ∧ n = the_node s ∧
              node_end n ts' = Ok n r).
Proof.
  split; [apply node_end_brace|]. split.
  - intros Hne. split_and!.
    + by apply node_end_terminator.
    + apply nodeTerminator_lineComment.
    + intros Hc Hin. split; [by apply nodeTerminator_token|].
      rewrite node_end_terminator by done. unfold bind.
      by rewrite nodeTerminator_token.
    + intros Hc Hin. rewrite node_end_terminator by done. unfold bind.
      by rewrite nodeTerminator_none.
  - intros r (s & ts' & Hs & Hend)%bind_Ok. exists s, ts'.
    assert (n = the_node s) as ->; [|done].
    revert Hend. apply (yields_node_end (the_node s) (fun n' => n' = the_node s)).
    done.
Qed.

(** The end of a node before a closing brace, a semicolon, the end of the
    input, and an equals sign. *)
Lemma node_terminator_mandatory_witness :
  node_end (Number := Z) (named_node None "foo") [Sample.tok RightBrace "}"] =
    Ok (named_node None "foo") [Sample.tok RightBrace "}"] ∧
  node_end (Number := Z) (named_node None "foo")
    [Sample.tok SemiColon ";"; Sample.tok Identifier "bar"] =
    Ok (named_node None "foo") [Sample.tok Identifier "bar"] ∧
  node_end (Number := Z) (named_node None "foo") [] =
    Ok (named_node None "foo") [] ∧
  node_end (Number := Z) (named_node None "foo") [Sample.tok Equals "="] =
    Throw (NoViableAltException (Sample.tok Equals "=")).
Proof.
  split_and!.
  - by apply (node_terminator_mandatory (Number := Z) (nodes 0)).
  - apply (node_terminator_mandatory (Number := Z) (nodes 0));
      [discriminate | reflexivity | by repeat constructor].
  - apply (node_terminator_mandatory (Number := Z) (nodes 0));
      [discriminate | reflexivity | by repeat constructor].
  - apply (node_terminator_mandatory (Number := Z) (nodes 0));
      [discriminate | reflexivity |].
    intros Hin. repeat (apply elem_of_cons in Hin as [Hin|Hin];
                        [discriminate|]).
    by apply elem_of_nil in Hin.
Defined.

(** * Further properties of the code *)

(** ** The diagnostics made of the errors of the lexer *)

(** X1. The token of the diagnostic [transformLexerError] makes starts on
    the line of the error of the lexer and ends as many lines below as the
    rejected text has line feeds (a carriage return before a line feed
    belongs to the line end); when the rejected text has no line feed, the
    token ends at the column of the error plus the length of that text. *)
Theorem lexer_error_token_lines error tokens text :
  let t := exception_token (transformLexerError error tokens text) in
  startLine t = error_line error ∧
  endLine t = error_line error + count_lf (image t) ∧
  (count_lf (image t) = 0 →
   endColumn t = error_column error + String.length (image t)).
Proof.
  simpl. split; [done|]. split.
  - rewrite split_lines_length. f_equal. lia.
  - intros H. by rewrite split_lines_one.
Qed.

(** X2. The diagnostic [transformLexerError] makes is about a token of type
    [Unknown] that spans the rejected text: it starts at the offset of the
    error, ends at the offset plus the length, and its image is the
    rejected text, cut at the end of the input.  The
    previous token is one of the tokens of the lexer that ends right before
    the error; an error at offset 0 has none. *)
Theorem lexer_error_token_span error tokens text :
  let e := transformLexerError error tokens text in
  let t := exception_token e in
  tokenType t = Unknown ∧
  startOffset t = error_offset error ∧
  endOffset t = error_offset error + error_length error ∧
  image t = substring (error_offset error) (error_length error) text ∧
  String.length (image t) =
    Nat.min (error_length error) (String.length text - error_offset error) ∧
  (error_offset error = 0 → exception_previous e = None) ∧
  (∀ p, exception_previous e = Some p →
        p ∈ tokens ∧
        ∃ k, endOffset p = Num k ∧ k + 1 = error_offset error).
Proof.
  simpl. unfold slice.
  replace (error_offset error + error_length error - error_offset error)
    with (error_length error) by lia.
  split_and!; try done.
  - apply length_substring.
  - intros ->. apply find_none_offset.
  - intros p Hp. apply find_some in Hp as [Hin Hp].
    apply ends_before_spec in Hp. split; [by apply list_elem_of_In|done].
Qed.

(** ** What a rule leaves is the end of what it was given *)

Lemma suffix_tail (ts : list Token) : tail ts `suffix_of` ts.
Proof. destruct ts; [done|]. apply suffix_cons_r. done. Qed.

Lemma leaves_suffix_ret {A} (a : A) : leaves_suffix (ret a).
Proof. by intros ts a' r [= _ <-]. Qed.

Lemma leaves_suffix_bind {A B} (p : P A) (k : A → P B) :
  leaves_suffix p → (∀ a, leaves_suffix (k a)) → leaves_suffix (bind p k).
Proof.
  intros Hp Hk ts b r (a & ts' & H1 & H2)%bind_Ok.
  apply Hp in H1. apply Hk in H2. by etrans.
Qed.

Lemma leaves_suffix_CONSUME T : leaves_suffix (CONSUME T).
Proof. intros ts t r (_ & _ & ->)%CONSUME_Ok. apply suffix_tail. Qed.

Lemma leaves_suffix_SUBRULE {A} (rule : BaseRule A) :
  leaves_suffix (SUBRULE rule).
Proof.
  intros ts a r. unfold SUBRULE. destruct (rule ts); [|done].
  intros [= _ <-]. apply suffix_drop.
Qed.

Lemma leaves_suffix_OPTION {A} first (body : P A) :
  leaves_suffix body → leaves_suffix (OPTION first body).
Proof.
  intros Hb ts a r. unfold OPTION. destruct (first _).
  - apply leaves_suffix_bind; [done | intros; apply leaves_suffix_ret].
  - by intros [= _ <-].
Qed.

Lemma leaves_suffix_OR {A} (alts : list (Alt A)) :
  Forall (fun a => leaves_suffix (ALT a)) alts → leaves_suffix (OR alts).
Proof.
  induction 1 as [|a alts Ha _ IH]; intros ts b r; simpl; [done |].
  destruct (_ && _); [apply Ha | apply IH].
Qed.

Lemma leaves_suffix_MANY {St} enter (DEF : St → P St) s :
  (∀ s, leaves_suffix (DEF s)) → leaves_suffix (MANY enter DEF s).
Proof.
  intros HD ts s' r. unfold MANY. generalize (S (length ts)). intros n.
  revert s ts. induction n as [|n IH]; intros s ts; simpl.
  - destruct (enter s ts); [done | by intros [= _ <-]].
  - destruct (enter s ts); [| by intros [= _ <-]].
    destruct (DEF s ts) as [s1 ts1| |] eqn:E; [|done..].
    apply HD in E. case_bool_decide as Hlt.
    + intros Hr%IH. by etrans.
    + by intros [= _ <-].
Qed.

Lemma leaves_suffix_AT_LEAST_ONE first body :
  leaves_suffix body → leaves_suffix (AT_LEAST_ONE first body).
Proof.
  intros Hb ts a r. unfold AT_LEAST_ONE.
  destruct (first _); [|done].
  destruct (body ts) as [[] ts1| |] eqn:E; [|done..].
  apply Hb in E. case_bool_decide as Hlt.
  - intros H. apply leaves_suffix_MANY in H; [by etrans | by intros].
  - intros ?; by simplify_eq.
Qed.

#[export] Hint Resolve leaves_suffix_ret leaves_suffix_CONSUME
  leaves_suffix_SUBRULE : rules.

Ltac suffix_step :=
  lazymatch goal with
  | |- leaves_suffix (bind _ _) => apply leaves_suffix_bind; [| intros ?]
  | |- leaves_suffix (OPTION _ _) => apply leaves_suffix_OPTION
  | |- leaves_suffix (AT_LEAST_ONE _ _) => apply leaves_suffix_AT_LEAST_ONE
  | |- leaves_suffix (MANY _ _ _) => apply leaves_suffix_MANY; intros ?
  | |- leaves_suffix (OR _) =>
      apply leaves_suffix_OR; repeat apply Forall_cons_2;
      [.. | apply Forall_nil_2]; cbv beta iota delta [ALT]
  | |- _ => solve [auto with rules]
  end.

Section Suffix.

Context {Number : Type} {Base : BaseParser Number}.

#[local] Abbreviation Node := (Node Number).

Lemma leaves_suffix_lineSpace : leaves_suffix lineSpace.
Proof. unfold lineSpace. repeat suffix_step. Qed.

Lemma leaves_suffix_nodeTerminator : leaves_suffix nodeTerminator.
Proof. unfold nodeTerminator. repeat suffix_step. Qed.

Lemma leaves_suffix_propertyOrArgument : leaves_suffix propertyOrArgument.
Proof. unfold propertyOrArgument, optSpace. repeat suffix_step. Qed.

#[local] Hint Resolve leaves_suffix_lineSpace leaves_suffix_nodeTerminator
  leaves_suffix_propertyOrArgument : rules.

Lemma leaves_suffix_node_end (n : Node) : leaves_suffix (node_end n).
Proof.
  intros ts a r. unfold node_end. case_bool_decide.
  - apply (leaves_suffix_bind nodeTerminator (fun _ => ret n));
      auto with rules.
  - apply leaves_suffix_ret.
Qed.

Lemma leaves_suffix_node_entry (nc : P (list Node)) s :
  leaves_suffix nc → leaves_suffix (node_entry nc s).
Proof.
  intros Hnc. unfold node_entry, commented, optSpace. repeat suffix_step.
Qed.

#[local] Hint Resolve leaves_suffix_node_end leaves_suffix_node_entry : rules.

Lemma leaves_suffix_node (nc : P (list Node)) :
  leaves_suffix nc → leaves_suffix (node nc).
Proof.
  intros Hnc. unfold node, node_entries, optSpace. repeat suffix_step.
Qed.

Lemma leaves_suffix_nodeChildren (ns : P (list Node)) :
  leaves_suffix ns → leaves_suffix (nodeChildren ns).
Proof. intros Hns. unfold nodeChildren. repeat suffix_step. Qed.

Lemma leaves_suffix_nodes d : leaves_suffix (nodes d).
Proof.
  induction d as [|d IH]; [done|].
  change (leaves_suffix (nodes_loop (node (nodeChildren (nodes d))) [])).
  pose proof (leaves_suffix_node _ (leaves_suffix_nodeChildren _ IH)).
  unfold nodes_loop, nodes_item. repeat suffix_step.
Qed.

End Suffix.

(** ** Rules that consume, and loops that stop *)

Lemma advances_shrinks {A} (p : P A) : advances p → shrinks p.
Proof. intros Hp ts a r H. apply Hp in H. lia. Qed.

Lemma advances_bind_l {A B} (p : P A) (k : A → P B) :
  advances p → (∀ a, shrinks (k a)) → advances (bind p k).
Proof.
  intros Hp Hk ts b r (a & ts' & H1 & H2)%bind_Ok.
  apply Hp in H1. apply Hk in H2. lia.
Qed.

Lemma advances_bind_r {A B} (p : P A) (k : A → P B) :
  shrinks p → (∀ a, advances (k a)) → advances (bind p k).
Proof.
  intros Hp Hk ts b r (a & ts' & H1 & H2)%bind_Ok.
  apply Hp in H1. apply Hk in H2. lia.
Qed.

Lemma advances_SUBRULE {A} (rule : BaseRule A) :
  consumes rule → advances (SUBRULE rule).
Proof.
  intros Hr ts a r. unfold SUBRULE. destruct (rule ts) as [a' n|] eqn:E; [|done].
  intros [= _ <-]. apply Hr in E as [Hn Hts]. rewrite length_drop.
  destruct ts; [done|]. simpl. lia.
Qed.

Lemma advances_OR {A} (alts : list (Alt A)) :
  Forall (fun a => advances (ALT a)) alts → advances (OR alts).
Proof.
  induction 1 as [|a alts Ha _ IH]; intros ts b r; simpl; [done |].
  destruct (_ && _); [apply Ha | apply IH].
Qed.

Lemma advances_AT_LEAST_ONE first body :
  advances body → advances (AT_LEAST_ONE first body).
Proof.
  intros Hb ts a r. unfold AT_LEAST_ONE.
  destruct (first _); [|done].
  destruct (body ts) as [[] ts1| |] eqn:E; [|done..].
  apply Hb in E. rewrite bool_decide_true by done.
  intros H. apply shrinks_MANY in H; [lia|].
  intros _. by apply advances_shrinks.
Qed.

(** A loop whose body consumes stops only where it may not go on. *)
Lemma MANY_stops {St} enter (DEF : St → P St) s ts s' r :
  (∀ s, advances (DEF s)) →
  MANY enter DEF s ts = Ok s' r → enter s' r = false.
Proof.
  intros HD. unfold MANY.
  assert (length ts < S (length ts)) as Hn by lia. revert Hn.
  generalize (S (length ts)). intros n. revert s ts.
  induction n as [|n IH]; intros s ts Hn; [lia|]. simpl.
  destruct (enter s ts) eqn:He; [|by intros [= <- <-]].
  destruct (DEF s ts) as [s1 ts1| |] eqn:E; [|done..].
  apply HD in E. rewrite bool_decide_true by done. apply IH. lia.
Qed.

(** What a loop keeps, between its state and the tokens left. *)
Lemma MANY_invariant {St} (I : St → list Token → Prop) enter
    (DEF : St → P St) s ts s' r :
  (∀ s ts s' ts', I s ts → DEF s ts = Ok s' ts' → I s' ts') →
  I s ts → MANY enter DEF s ts = Ok s' r → I s' r.
Proof.
  intros HD. unfold MANY. generalize (S (length ts)). intros n.
  revert s ts. induction n as [|n IH]; intros s ts Hs; simpl.
  - destruct (enter s ts); [done | by intros [= <- <-]].
  - destruct (enter s ts); [| by intros [= <- <-]].
    destruct (DEF s ts) as [s1 ts1| |] eqn:E; [|done..].
    apply (HD _ _ _ _ Hs) in E. case_bool_decide; [by apply IH|].
    by intros [= <- <-].
Qed.

Lemma MANY_measure {St} (μ : St → nat) enter (DEF : St → P St) s ts s' r :
  (∀ s ts s' ts', DEF s ts = Ok s' ts' →
                  μ s' + length ts' ≤ μ s + length ts) →
  MANY enter DEF s ts = Ok s' r → μ s' + length r ≤ μ s + length ts.
Proof.
  intros HD.
  apply (MANY_invariant
           (fun s' r => μ s' + length r ≤ μ s + length ts)); [|done].
  intros s1 ts1 s2 ts2 H1 H2%HD. lia.
Qed.

(** The alternative of [OR] that answered. *)
Lemma OR_Ok {A} (alts : list (Alt A)) ts a r :
  OR alts ts = Ok a r →
  ∃ alt, alt ∈ alts ∧ GATE alt = true ∧ FIRST alt (LAtype ts) = true ∧
         ALT alt ts = Ok a r.
Proof.
  induction alts as [|alt alts IH]; simpl; [done|].
  destruct (GATE alt && FIRST alt (LAtype ts)) eqn:E.
  - apply andb_prop in E as [Hg Hf]. intros Hrun. exists alt.
    split_and!; [by left|done..].
  - intros (alt' & Hin & H)%IH. exists alt'. split; [by right|done].
Qed.

Ltac alt_cases Hin Hrun :=
  repeat (apply elem_of_cons in Hin as [->|Hin]);
  [.. | by apply elem_of_nil in Hin]; simpl in Hrun.

Ltac advances_step :=
  lazymatch goal with
  | |- advances (bind (CONSUME _) _) =>
      apply advances_bind_l;
      [by apply advances_CONSUME | intros ?; rule_solve]
  | |- advances (bind (SUBRULE _) _) =>
      apply advances_bind_l;
      [by apply advances_SUBRULE | intros ?; rule_solve]
  | |- advances (OR _) =>
      apply advances_OR; repeat apply Forall_cons_2;
      [.. | apply Forall_nil_2]; cbv beta iota delta [ALT]
  | |- advances (SUBRULE _) => by apply advances_SUBRULE
  | |- advances (AT_LEAST_ONE _ _) => apply advances_AT_LEAST_ONE
  end.

Section Progress.

Context {Number : Type} {Base : BaseParser Number}.
Hypothesis Hbase : productive Base.

#[local] Abbreviation Node := (Node Number).
#[local] Abbreviation NodeState := (NodeState Number).

#[local] Hint Resolve shrinks_lineSpace shrinks_nodeTerminator
  shrinks_propertyOrArgument shrinks_node_end shrinks_node_entry
  shrinks_node shrinks_nodeChildren shrinks_nodes : rules.

Lemma advances_lineSpace : advances lineSpace.
Proof.
  destruct Hbase as (Ht & Hs & Hv & Hsp & Hc).
  unfold lineSpace. repeat advances_step.
Qed.

Lemma advances_propertyOrArgument : advances propertyOrArgument.
Proof.
  destruct Hbase as (Ht & Hs & Hv & Hsp & Hc).
  unfold propertyOrArgument, optSpace. repeat advances_step.
Qed.

Lemma advances_nodeChildren (ns : P (list Node)) :
  shrinks ns → advances (nodeChildren ns).
Proof. intros Hns. unfold nodeChildren. repeat advances_step. Qed.

Lemma advances_node_entry (nc : P (list Node)) s :
  advances nc → advances (node_entry nc s).
Proof.
  intros Hnc. pose proof (advances_shrinks _ Hnc). unfold node_entry.
  apply advances_OR; repeat apply Forall_cons_2; [.. | apply Forall_nil_2];
    cbv beta iota delta [ALT].
  - apply advances_bind_l; [apply advances_propertyOrArgument|].
    intros ?; rule_solve.
  - apply advances_bind_l; [done|].
    intros ?; unfold optSpace; rule_solve.
  - apply advances_bind_l; [by apply advances_CONSUME|].
    intros ?. unfold commented, optSpace. rule_solve.
Qed.

Lemma advances_node (nc : P (list Node)) : shrinks nc → advances (node nc).
Proof.
  intros Hnc. destruct Hbase as (Ht & Hs & Hv & Hsp & Hc).
  unfold node. apply advances_bind_l; [|intros ?; rule_solve].
  unfold node_entries. apply advances_bind_r.
  { unfold optSpace. rule_solve. }
  intros tagName. apply advances_bind_l; [by apply advances_SUBRULE|].
  intros ?. unfold optSpace. rule_solve.
Qed.

Lemma advances_nodes_item (nd : P Node) acc :
  advances nd → advances (nodes_item nd acc).
Proof.
  intros Hnd. pose proof (advances_shrinks _ Hnd).
  unfold nodes_item.
  apply advances_OR; repeat apply Forall_cons_2; [.. | apply Forall_nil_2];
    cbv beta iota delta [ALT].
  - apply advances_bind_l; [by apply advances_CONSUME|].
    intros ?. rule_solve.
  - apply advances_bind_l; [apply advances_lineSpace|]. intros ?; rule_solve.
  - apply advances_bind_l; [done|]. intros ?; rule_solve.
Qed.

(** The rule [node] at work in [nodes] consumes. *)
Lemma advances_node_at d : advances (node (nodeChildren (nodes d))).
Proof. apply advances_node, shrinks_nodeChildren, shrinks_nodes. Qed.

(** The loop of [nodes] stops only where no item can start. *)
Lemma nodes_loop_stops (nd : P Node) acc ts ns r :
  advances nd → nodes_loop nd acc ts = Ok ns r →
  first_nodes (LAtype r) = false.
Proof.
  intros Hnd Hrun. unfold nodes_loop in Hrun.
  apply MANY_stops in Hrun; [done|]. intros acc'.
  by apply advances_nodes_item.
Qed.

End Progress.

(** ** The loop of [nodes], turn by turn *)

Section NodeLists.

Context {Number : Type} {Base : BaseParser Number}.

#[local] Abbreviation Node := (Node Number).

Lemma nodes_item_app (nd : P Node) acc l ts :
  nodes_item nd (acc ++ l) ts = res_map (app acc) (nodes_item nd l ts).
Proof.
  unfold nodes_item. rewrite !OR_cons. cbn [GATE FIRST ALT OR].
  repeat (destruct (_ && _)); try done; unfold bind.
  - destruct (CONSUME BlockComment ts); [|done..].
    destruct (OPTION first_lineSpace lineSpace rest); [|done..].
    by destruct (nd rest0).
  - by destruct (lineSpace ts).
  - destruct (nd ts); [|done..]. simpl. by rewrite app_assoc.
Qed.

Lemma nodes_loop_app (nd : P Node) acc l ts :
  nodes_loop nd (acc ++ l) ts = res_map (app acc) (nodes_loop nd l ts).
Proof.
  unfold nodes_loop, MANY. generalize (S (length ts)). intros n.
  revert l ts. induction n as [|n IH]; intros l ts; simpl.
  - by destruct (first_nodes _).
  - destruct (first_nodes _); [|done].
    rewrite nodes_item_app.
    destruct (nodes_item nd l ts) as [l' ts'| |]; [|done..]. simpl.
    case_bool_decide; [|done]. apply IH.
Qed.

(** One turn of the loop of [nodes]: over line space, over a node, and out
    of the loop. *)
Lemma nodes_loop_lineSpace (nd : P Node) acc ts ts' :
  only BlockComment (LAtype ts) = false →
  first_lineSpace (LAtype ts) = true →
  lineSpace ts = Ok () ts' → length ts' < length ts →
  nodes_loop nd acc ts = nodes_loop nd acc ts'.
Proof.
  intros Hc Hf Hls Hlt. unfold nodes_loop. rewrite MANY_unfold.
  unfold first_nodes at 1. rewrite Hc, Hf. simpl.
  unfold nodes_item at 1. rewrite !OR_cons. cbn [GATE FIRST ALT].
  rewrite Hc, Hf. simpl. unfold bind. rewrite Hls. simpl.
  by rewrite bool_decide_true.
Qed.

Lemma nodes_loop_node (nd : P Node) acc ts n ts' :
  only BlockComment (LAtype ts) = false →
  first_lineSpace (LAtype ts) = false → first_node (LAtype ts) = true →
  nd ts = Ok n ts' → length ts' < length ts →
  nodes_loop nd acc ts = nodes_loop nd (acc ++ [n]) ts'.
Proof.
  intros Hc Hf Hn Hnd Hlt. unfold nodes_loop. rewrite MANY_unfold.
  unfold first_nodes at 1. rewrite Hc, Hf, Hn. simpl.
  unfold nodes_item at 1. rewrite !OR_cons. cbn [GATE FIRST ALT].
  rewrite Hc, Hf, Hn. simpl. unfold bind. rewrite Hnd. simpl.
  by rewrite bool_decide_true.
Qed.

Lemma nodes_loop_done (nd : P Node) acc ts :
  first_nodes (LAtype ts) = false → nodes_loop nd acc ts = Ok acc ts.
Proof.
  intros Hf. unfold nodes_loop. rewrite MANY_unfold. by rewrite Hf.
Qed.

Lemma first_nodes_EOF :
  first_nodes EOF = false →
  first_lineSpace EOF = false ∧ first_node EOF = false.
Proof.
  unfold first_nodes. intros H.
  apply orb_false_elim in H as [H ?]. by apply orb_false_elim in H as [_ ?].
Qed.

(** [lineSpace] reads a run of line feeds to its end. *)
Lemma lineSpace_NewLines t ts :
  first_nodeSpace NewLine = false → first_nodes EOF = false →
  Forall (fun t => tokenType t = NewLine) (t :: ts) →
  lineSpace (t :: ts) = Ok () [].
Proof.
  intros Hsp [Heof _]%first_nodes_EOF Hts. unfold lineSpace.
  set (body := OR _).
  assert (∀ t ts, tokenType t = NewLine → body (t :: ts) = Ok () ts) as Hbody.
  { intros t' ts' Ht'. unfold body. rewrite !OR_cons. simpl.
    unfold LAtype. simpl. rewrite Ht', Hsp. unfold only at 1.
    rewrite bool_decide_true by done. unfold bind, CONSUME, LAtype. simpl.
    by rewrite decide_True. }
  assert (∀ t, tokenType t = NewLine → first_lineSpace (tokenType t) = true)
    as Hfirst.
  { intros t' ->. unfold first_lineSpace, only.
    rewrite bool_decide_true by done. by rewrite orb_true_r. }
  apply Forall_cons in Hts as [Ht Hts].
  unfold AT_LEAST_ONE. change (LAtype (t :: ts)) with (tokenType t).
  rewrite Hfirst, Hbody by done.
  rewrite bool_decide_true by (simpl; lia).
  clear t Ht. induction Hts as [|t ts Ht Hts IH]; rewrite MANY_unfold;
    cbv beta.
  - by rewrite LAtype_nil, Heof.
  - change (LAtype (t :: ts)) with (tokenType t).
    rewrite Hfirst, Hbody by done.
    by rewrite bool_decide_true by (simpl; lia).
Qed.

End NodeLists.

(** ** The nodes of a document are paid for in tokens *)

Section Size.

Context {Number : Type} {Base : BaseParser Number}.
Hypothesis Hname : consumes string_.

#[local] Abbreviation Node := (Node Number).
#[local] Abbreviation NodeState := (NodeState Number).

Lemma subtree_add_entry parts (n : Node) :
  length (subtree (add_entry parts n)) = length (subtree n).
Proof. by rewrite !subtree_eq, children_add_entry. Qed.

Lemma paid_node_entry (nc : P (list Node)) s ts s' ts' :
  paid nc → node_entry nc s ts = Ok s' ts' →
  length (subtree (the_node s')) + length ts' ≤
  length (subtree (the_node s)) + length ts.
Proof.
  intros Hnc (alt & Hin & _ & _ & Hrun)%OR_Ok.
  alt_cases Hin Hrun.
  - apply bind_Ok in Hrun as (parts & ts1 & H1 & [= <- <-]).
    apply shrinks_propertyOrArgument in H1. simpl.
    rewrite subtree_add_entry. lia.
  - apply bind_Ok in Hrun as (c & ts1 & H1 & H).
    apply bind_Ok in H as (sp & ts2 & H2 & [= <- <-]).
    apply Hnc in H1.
    apply shrinks_OPTION in H2; [|apply shrinks_SUBRULE].
    cbn [the_node]. rewrite !subtree_eq.
    cbn [length set_children children]. lia.
  - apply bind_Ok in Hrun as (c & ts1 & H1 & H).
    apply bind_Ok in H as (sp & ts2 & H2 & H).
    apply shrinks_CONSUME in H1.
    apply shrinks_OPTION in H2; [|apply shrinks_lineSpace].
    apply OR_Ok in H as (alt & Hin & _ & _ & Hrun).
    alt_cases Hin Hrun.
    + apply bind_Ok in Hrun as (parts & ts3 & H3 & [= <- <-]).
      apply shrinks_propertyOrArgument in H3. simpl. lia.
    + apply bind_Ok in Hrun as (c' & ts3 & H3 & H).
      apply bind_Ok in H as (sp' & ts4 & H4 & [= <- <-]).
      apply Hnc in H3.
      apply shrinks_OPTION in H4; [|apply shrinks_SUBRULE]. simpl. lia.
Qed.

Lemma paid_node (nc : P (list Node)) ts n r :
  paid nc → node nc ts = Ok n r →
  length (subtree n) + length r ≤ length ts.
Proof.
  intros Hnc. unfold node, node_entries.
  intros (s & ts4 & H & Hend)%bind_Ok.
  apply bind_Ok in H as (tagName & ts1 & H1 & H).
  apply bind_Ok in H as (name' & ts2 & H2 & H).
  apply bind_Ok in H as (space & ts3 & H3 & H).
  apply shrinks_OPTION in H1;
    [|apply shrinks_bind; [apply shrinks_SUBRULE|intros ?];
      apply shrinks_bind; [|intros ?; apply shrinks_ret];
      apply shrinks_OPTION, shrinks_SUBRULE].
  apply advances_SUBRULE in H2; [|done].
  apply shrinks_OPTION in H3; [|apply shrinks_SUBRULE].
  apply (MANY_measure (fun s => length (subtree (the_node s)))) in H;
    [|intros ????; by apply paid_node_entry].
  simpl in H.
  assert (n = the_node s ∧ length r ≤ length ts4) as [-> ?]; [|lia].
  split; [by apply (yields_node_end (the_node s) (fun n' => n' = the_node s))
             in Hend|].
  by apply shrinks_node_end in Hend.
Qed.

Lemma paid_nodeChildren (ns : P (list Node)) :
  paid ns → paid (nodeChildren ns).
Proof.
  intros Hns ts c r. unfold nodeChildren.
  intros (l & ts1 & H1 & H)%bind_Ok.
  apply bind_Ok in H as (c' & ts2 & H2 & H).
  apply bind_Ok in H as (rb & ts3 & H3 & [= <- <-]).
  apply shrinks_CONSUME in H1. apply Hns in H2. apply shrinks_CONSUME in H3.
  lia.
Qed.

Lemma paid_nodes_item (nd : P Node) acc ts acc' ts' :
  (∀ ts n r, nd ts = Ok n r → length (subtree n) + length r ≤ length ts) →
  nodes_item nd acc ts = Ok acc' ts' →
  length (all_nodes acc') + length ts' ≤ length (all_nodes acc) + length ts.
Proof.
  intros Hnd (alt & Hin & _ & _ & Hrun)%OR_Ok.
  alt_cases Hin Hrun.
  - apply bind_Ok in Hrun as (c & ts1 & H1 & H).
    apply bind_Ok in H as (sp & ts2 & H2 & H).
    apply bind_Ok in H as (n & ts3 & H3 & [= <- <-]).
    apply shrinks_CONSUME in H1.
    apply shrinks_OPTION in H2; [|apply shrinks_lineSpace].
    apply Hnd in H3. lia.
  - apply bind_Ok in Hrun as (u & ts1 & H1 & [= <- <-]).
    apply shrinks_lineSpace in H1. lia.
  - apply bind_Ok in Hrun as (n & ts1 & H1 & [= <- <-]).
    apply Hnd in H1. rewrite all_nodes_snoc, length_app. lia.
Qed.

Lemma paid_nodes d : paid (nodes d).
Proof.
  induction d as [|d IH]; [done|]. intros ts ns r. simpl. unfold nodes_loop.
  intros H.
  apply (MANY_measure (fun acc => length (all_nodes acc))) in H; [done|].
  intros acc ts1 acc' ts'. apply paid_nodes_item.
  intros ts2 n r2. by apply paid_node, paid_nodeChildren.
Qed.

End Size.

(** ** What the entries leave of a node *)

Section Content.

Context {Number : Type} {Base : BaseParser Number}.

#[local] Abbreviation Node := (Node Number).
#[local] Abbreviation NodeState := (NodeState Number).

Lemma add_entries_values (l : list (Parts Number)) (n : Node) :
  name (add_entries l n) = name n ∧
  tags_name (tags (add_entries l n)) = tags_name (tags n) ∧
  values (add_entries l n) = values n ++ arguments l ∧
  tags_values (tags (add_entries l n)) =
    tags_values (tags n) ++ argument_tags l.
Proof.
  revert n. induction l as [|parts l IH]; intros n.
  - simpl. by rewrite !app_nil_r.
  - change (add_entries (parts :: l) n)
      with (add_entries l (add_entry parts n)).
    destruct (IH (add_entry parts n)) as (-> & -> & -> & ->).
    unfold add_entry, arguments, argument_tags. simpl.
    destruct (parts0 parts); simpl; [done|]. by rewrite <- !app_assoc.
Qed.

(** Whatever adding an entry and setting the children keep, the entry loop
    keeps. *)
Lemma node_entry_keeps (nc : P (list Node)) (f : Node → Prop) s :
  (∀ parts n, f n → f (add_entry parts n)) →
  (∀ c n, f n → f (set_children c n)) →
  f (the_node s) → yields (fun s' => f (the_node s')) (node_entry nc s).
Proof.
  intros Hadd Hset Hs. unfold node_entry, commented.
  apply yields_OR; repeat apply Forall_cons_2; [.. | apply Forall_nil_2];
    cbv beta iota delta [ALT].
  - apply (yields_bind (fun _ => True)); [apply yields_any|].
    intros parts _. apply yields_ret. by apply Hadd.
  - apply (yields_bind (fun _ => True)); [apply yields_any|]. intros c _.
    apply (yields_bind (fun _ => True)); [apply yields_any|]. intros sp _.
    apply yields_ret. by apply Hset.
  - apply (yields_bind (fun _ => True)); [apply yields_any|]. intros _ _.
    apply (yields_bind (fun _ => True)); [apply yields_any|]. intros _ _.
    apply yields_OR; repeat apply Forall_cons_2; [.. | apply Forall_nil_2];
      cbv beta iota delta [ALT].
    + apply (yields_bind (fun _ => True)); [apply yields_any|].
      intros parts _. by apply yields_ret.
    + apply (yields_bind (fun _ => True)); [apply yields_any|]. intros c _.
      apply (yields_bind (fun _ => True)); [apply yields_any|]. intros sp _.
      by apply yields_ret.
Qed.

End Content.

(** ** The sample base parser *)

Lemma LAtype_cons_inv ts T : LAtype ts = T → T ≠ EOF → ts ≠ [].
Proof. intros <- H ->. by apply H. Qed.

Lemma sample_productive : productive Sample.base.
Proof.
  unfold productive. cbn [tag string_ nonStringValue nodeSpace lineComment
                          Sample.base].
  split_and!; intros ts a n.
  - unfold Sample.tag, Sample.as_rule.
    match goal with
    | |- context [match ?p ts with _ => _ end] =>
        destruct (p ts) as [a' rest| |] eqn:E; [|done..]
    end.
    intros [= _ <-].
    apply bind_Ok in E as (lp & ts1 & H1 & H).
    assert (shrinks
              (_ <- OPTION (only WhiteSpace) (SUBRULE Sample.nodeSpace) ;;
               tag' <- SUBRULE Sample.string_ ;;
               _ <- OPTION (only WhiteSpace) (SUBRULE Sample.nodeSpace) ;;
               _ <- CONSUME RightParenthesis ;;
               ret tag')) as Hrest by rule_solve.
    apply Hrest in H. apply advances_CONSUME in H1; [|done].
    split; [lia|]. intros ->. simpl in H1. lia.
  - unfold Sample.string_. destruct (decide _) as [HL|]; [|done].
    intros [= _ <-]. split; [lia|]. by eapply LAtype_cons_inv.
  - unfold Sample.nonStringValue.
    destruct (LAtype ts) eqn:HL; try done; intros [= _ <-];
      (split; [lia|]); by eapply LAtype_cons_inv.
  - unfold Sample.nodeSpace.
    destruct (Sample.leading_space ts) as [|k] eqn:E; [done|].
    intros [= _ <-]. split; [lia|]. by intros ->.
  - unfold Sample.lineComment. destruct (decide _) as [HL|]; [|done].
    intros [= _ <-]. split; [lia|]. by eapply LAtype_cons_inv.
Qed.

(** ** The rule [document] *)

(** X4. When no token has the type [EOF] (no mode of the lexer definition
    lists it; it is the type of the token the parser sees past the end), a
    document is returned only after every token has been read: nothing is
    left, and the document is what [nodes] returned on the tokens, or on
    the tokens after the byte order mark when they start with one, read to
    their end. *)
Theorem document_reads_all_tokens {Number} {Base : BaseParser Number}
    ts (doc : Document Number) r :
  Forall (fun t => tokenType t ≠ EOF) ts →
  document ts = Ok doc r →
  r = [] ∧
  nodes (S (length ts)) (if decide (LAtype ts = BOM) then tail ts else ts) =
    Ok doc [].
Proof.
  intros Hts. rewrite document_after_BOM.
  set (ts0 := if decide (LAtype ts = BOM) then tail ts else ts).
  assert (ts0 `suffix_of` ts) as Hts0.
  { unfold ts0. destruct (decide _); [apply suffix_tail | done]. }
  intros (ns & ts2 & H2 & H)%bind_Ok.
  apply bind_Ok in H as (eof & ts3 & H3 & [= <- <-]).
  pose proof (leaves_suffix_nodes _ _ _ _ H2) as H2'.
  apply CONSUME_Ok in H3 as (HL & _ & ->).
  assert (ts2 = []) as ->; [|done].
  destruct ts2 as [|t ts2]; [done|]. exfalso.
  assert (t ∈ ts) as Ht.
  { eapply elem_of_suffix; [|by etrans]. by left. }
  rewrite Forall_forall in Hts. by apply (Hts t Ht).
Qed.

Lemma document_reads_all_tokens_witness :
  nodes (Number := Z) 10 Sample.foo_1_2_bar =
    Ok Sample.foo_1_2_bar_document [].
Proof.
  assert (Forall (fun t => tokenType t ≠ EOF) Sample.foo_1_2_bar) as Hts.
  { unfold Sample.foo_1_2_bar. repeat apply Forall_cons_2; [..|constructor];
      by intros [=]. }
  assert (document Sample.foo_1_2_bar = Ok Sample.foo_1_2_bar_document [])
    as Hdoc by reflexivity.
  exact (proj2 (document_reads_all_tokens _ _ _ Hts Hdoc)).
Defined.

(** X5. A byte order mark at the start of the tokens is dropped: unless a
    second one follows it, the document with it is the document without
    it. *)
Theorem leading_BOM_ignored {Number} {Base : BaseParser Number} t ts :
  tokenType t = BOM → LAtype ts ≠ BOM → document (t :: ts) = document ts.
Proof.
  intros Ht HLA. unfold document at 1. rewrite document_at_BOM by done.
  rewrite <- document_at_no_BOM by done. apply document_depth. simpl. lia.
Qed.

Lemma leading_BOM_ignored_witness :
  document (Sample.tok BOM Sample.byte_order_mark :: Sample.foo_1_2_bar) =
  document Sample.foo_1_2_bar.
Proof.
  apply (leading_BOM_ignored (Base := Sample.base)); [reflexivity|].
  by intros [=].
Defined.

(** X6. A text of line feeds only, and the empty text, is the empty
    document, with every token read: provided line feeds do not start the
    node space of the base parser, and nothing of the grammar starts at the
    end of the input. *)
Theorem blank_document {Number} {Base : BaseParser Number} ts :
  first_nodeSpace NewLine = false → first_nodes EOF = false →
  Forall (fun t => tokenType t = NewLine) ts →
  document ts = Ok [] [].
Proof.
  intros Hsp Heof Hts. unfold document.
  assert (nodes (S (length ts)) ts = Ok [] []) as Hnodes.
  { simpl. destruct ts as [|t ts].
    - apply nodes_loop_done. by rewrite LAtype_nil.
    - pose proof (Forall_inv Hts) as Ht. simpl in Ht.
      rewrite (nodes_loop_lineSpace _ [] (t :: ts) []).
      + apply nodes_loop_done. by rewrite LAtype_nil.
      + change (LAtype (t :: ts)) with (tokenType t). by rewrite Ht.
      + change (LAtype (t :: ts)) with (tokenType t). rewrite Ht.
        unfold first_lineSpace, only.
        rewrite bool_decide_true by done. by rewrite orb_true_r.
      + by apply lineSpace_NewLines.
      + simpl. lia. }
  rewrite document_at_no_BOM.
  - unfold bind at 1. rewrite Hnodes. done.
  - destruct Hts as [|t ts Ht _]; [by rewrite LAtype_nil|].
    unfold LAtype. simpl. by rewrite Ht.
Qed.

Lemma blank_document_witness :
  document (Number := Z) Sample.blank_lines = Ok [] [].
Proof.
  apply (blank_document (Base := Sample.base)); [reflexivity..|].
  unfold Sample.blank_lines. by repeat constructor.
Defined.

(** X7. With a base parser whose rules consume, [document] fails in one of
    two ways: with the exception [nodes] threw on the tokens (after the
    byte order mark, when they start with one), or, when [nodes] returned,
    with a [MismatchedTokenException] that expected [EOF] and is about the
    first token left over, a token of the input that starts no node, no
    line space and no commented node.  The parser saves that exception with
    the token before the left-over one as previous token, the end of file
    token when the left-over token is the first. *)
Theorem document_rejects_trailing_token {Number} {Base : BaseParser Number}
    ts e :
  productive Base →
  document ts = Throw e →
  nodes (S (length ts)) (if decide (LAtype ts = BOM) then tail ts else ts) =
    Throw e ∨
  ∃ before t after,
    ts = before ++ t :: after ∧
    first_nodes (tokenType t) = false ∧ tokenType t ≠ EOF ∧
    e = MismatchedTokenException (Expecting EOF) t (LastRead (t :: after)) ∧
    saved_exception ts e =
      MismatchedTokenException (Expecting EOF) t
        (PreviousToken (Some (List.last before END_OF_FILE))).
Proof.
  intros Hbase [Hrun|(ns & r & Hrun & HL & ->)]%document_Throw; [by left|].
  right.
  assert (r `suffix_of` ts) as [before ->].
  { apply leaves_suffix_nodes in Hrun. etrans; [done|].
    destruct (decide _); [apply suffix_tail | done]. }
  assert (first_nodes (LAtype r) = false) as Hstop.
  { eapply nodes_loop_stops; [done| |exact Hrun]. by apply advances_node_at. }
  destruct r as [|t after]; [done|]. exists before, t, after.
  split_and!; [done..|]. cbn [saved_exception LA1]. by rewrite LA0_app.
Qed.

Lemma document_rejects_trailing_token_witness :
  ∃ before t after,
    Sample.foo_close = before ++ t :: after ∧
    first_nodes (Base := Sample.base) (tokenType t) = false ∧
    tokenType t ≠ EOF ∧
    MismatchedTokenException (Expecting EOF) (Sample.tok RightBrace "}")
      (LastRead [Sample.tok RightBrace "}"]) =
    MismatchedTokenException (Expecting EOF) t (LastRead (t :: after)) ∧
    saved_exception Sample.foo_close
      (MismatchedTokenException (Expecting EOF) (Sample.tok RightBrace "}")
         (LastRead [Sample.tok RightBrace "}"])) =
    MismatchedTokenException (Expecting EOF) t
      (PreviousToken (Some (List.last before END_OF_FILE))).
Proof.
  destruct (document_rejects_trailing_token (Base := Sample.base)
              Sample.foo_close
              (MismatchedTokenException (Expecting EOF)
                 (Sample.tok RightBrace "}")
                 (LastRead [Sample.tok RightBrace "}"]))
              sample_productive eq_refl) as [Hrun|H]; [|exact H].
  vm_compute in Hrun. discriminate Hrun.
Defined.

(** X8. When the rule [string] of the base parser consumes, every node of a
    returned document, at every depth, has cost a token: the nodes of the
    document and the tokens left are together no more than the tokens
    given. *)
Theorem document_size {Number} {Base : BaseParser Number}
    ts (doc : Document Number) r :
  consumes string_ →
  document ts = Ok doc r → length (all_nodes doc) + length r ≤ length ts.
Proof.
  intros Hname. unfold document, document_at.
  intros (bom & ts1 & H1 & H)%bind_Ok.
  apply bind_Ok in H as (ns & ts2 & H2 & H).
  apply bind_Ok in H as (eof & ts3 & H3 & [= <- <-]).
  apply shrinks_OPTION in H1; [|apply shrinks_CONSUME].
  apply (paid_nodes Hname) in H2. apply shrinks_CONSUME in H3. lia.
Qed.

Lemma document_size_witness :
  length (all_nodes Sample.foo_1_2_bar_document) + length (@nil Token) ≤
  length Sample.foo_1_2_bar.
Proof.
  apply (document_size (Base := Sample.base));
    [exact (proj1 (proj2 sample_productive)) | reflexivity].
Defined.

(** ** The rule [nodes] *)

(** X9. The loop of [nodes] only appends: started from nodes already read,
    it returns them followed by what it returns when started from none, on
    the same tokens left, and fails as it fails when started from none. *)
Theorem nodes_loop_accumulates {Number} {Base : BaseParser Number}
    (nd : P (Node Number)) acc ts :
  nodes_loop nd acc ts = res_map (app acc) (nodes_loop nd [] ts).
Proof. by rewrite <- (app_nil_r acc) at 1; rewrite nodes_loop_app. Qed.

(** X10. With a base parser whose rules consume, [nodes] on tokens that do
    not start with a block comment is: [nodes] on what [lineSpace] left,
    when line space comes first; the node that [node] returned followed by
    [nodes] on what it left, when a node comes first; and no node, with
    nothing consumed, when neither can start. *)
Theorem nodes_by_cases {Number} {Base : BaseParser Number} d ts :
  productive Base →
  LAtype ts ≠ BlockComment →
  (first_lineSpace (LAtype ts) = true →
   ∀ ts', lineSpace ts = Ok () ts' → nodes (S d) ts = nodes (S d) ts') ∧
  (first_lineSpace (LAtype ts) = false → first_node (LAtype ts) = true →
   ∀ n ts', node (nodeChildren (nodes d)) ts = Ok n ts' →
            nodes (S d) ts = res_map (cons n) (nodes (S d) ts')) ∧
  (first_lineSpace (LAtype ts) = false → first_node (LAtype ts) = false →
   nodes (S d) ts = Ok [] ts).
Proof.
  intros Hbase Hc.
  assert (only BlockComment (LAtype ts) = false) as Hc'.
  { by apply bool_decide_eq_false. }
  cbn [nodes]. split_and!.
  - intros Hf ts' Hls. apply nodes_loop_lineSpace; [done..|].
    by apply (advances_lineSpace Hbase) in Hls.
  - intros Hf Hn n ts' Hnd.
    rewrite (nodes_loop_node _ [] ts n ts'); [|done..|].
    + apply (nodes_loop_app _ [n] []).
    + by apply (advances_node_at Hbase) in Hnd.
  - intros Hf Hn. apply nodes_loop_done.
    unfold first_nodes. by rewrite Hc', Hf, Hn.
Qed.

Lemma nodes_by_cases_witness :
  nodes (Number := Z) 2 Sample.foo_semi_bar =
  res_map (cons (named_node None "foo"))
    (nodes 2 [Sample.tok Identifier "bar"]).
Proof.
  assert (LAtype Sample.foo_semi_bar ≠ BlockComment) as Hc by (by intros [=]).
  destruct (nodes_by_cases (Base := Sample.base) 1 Sample.foo_semi_bar
              sample_productive Hc) as (_ & Hnode & _).
  apply Hnode; reflexivity.
Defined.

(** X11. With a base parser whose rules consume, [nodes] reads as far as it
    can: where it returns, the next token starts no node, no line space and
    no commented node. *)
Theorem nodes_stop_where_none_starts {Number} {Base : BaseParser Number}
    d ts (ns : list (Node Number)) r :
  productive Base →
  nodes d ts = Ok ns r → first_nodes (LAtype r) = false.
Proof.
  intros Hbase. destruct d as [|d]; [done|]. cbn [nodes]. intros Hrun.
  eapply nodes_loop_stops; [done| |exact Hrun]. by apply advances_node_at.
Qed.

Lemma nodes_stop_where_none_starts_witness :
  first_nodes (Base := Sample.base)
    (LAtype [Sample.tok RightBrace "}"]) = false.
Proof.
  apply (nodes_stop_where_none_starts (Base := Sample.base) 2
           Sample.foo_close [named_node None "foo"]);
    [exact sample_productive | reflexivity].
Defined.

(** ** The rule [node] *)

(** X12. With a base parser whose rules consume and a rule for children
    blocks that consumes, the entry loop of [node] stops only where the last
    thing read was not followed by node space, or a token that ends a node
    comes next, or the next token starts no entry, children block or block
    comment. *)
Theorem entries_stop_without_space {Number} {Base : BaseParser Number}
    (nc : P (list (Node Number))) ts s r :
  productive Base → advances nc →
  node_entries nc ts = Ok s r →
  hasSpace s = false ∨ nodeEndTokens (LAtype r) = true ∨
  first_entry (LAtype r) = false.
Proof.
  intros Hbase Hnc. unfold node_entries.
  intros (tagName & ts1 & _ & H)%bind_Ok.
  apply bind_Ok in H as (name' & ts2 & _ & H).
  apply bind_Ok in H as (space & ts3 & _ & H).
  apply MANY_stops in H; [|intros ?; by apply advances_node_entry].
  unfold entry_gate in H.
  destruct (hasSpace s); [|by left].
  destruct (nodeEndTokens _); [by right; left|].
  simpl in H. by right; right.
Qed.

Lemma entries_stop_without_space_witness :
  ∃ s,
    node_entries (Base := Sample.base) (nodeChildren (nodes 1))
      Sample.foo_semi_bar =
      Ok s [Sample.tok SemiColon ";"; Sample.tok Identifier "bar"] ∧
    (hasSpace s = false ∨
     nodeEndTokens
       (LAtype [Sample.tok SemiColon ";"; Sample.tok Identifier "bar"]) =
       true ∨
     first_entry (Base := Sample.base)
       (LAtype [Sample.tok SemiColon ";"; Sample.tok Identifier "bar"]) =
       false).
Proof.
  exists (mkNodeState (named_node None "foo") false false false).
  assert (node_entries (Base := Sample.base) (nodeChildren (nodes 1))
            Sample.foo_semi_bar =
          Ok (mkNodeState (named_node None "foo") false false false)
            [Sample.tok SemiColon ";"; Sample.tok Identifier "bar"])
    as Hrun by reflexivity.
  split; [exact Hrun|].
  apply (entries_stop_without_space (Base := Sample.base)
           (nodeChildren (nodes 1)) Sample.foo_semi_bar);
    [exact sample_productive | | exact Hrun].
  apply advances_nodeChildren, shrinks_nodes.
Defined.

(** One turn of the entry loop reads on from where the loop has got to,
    and the node has the entries read. *)
Lemma node_entry_reads {Number} {Base : BaseParser Number}
    (nc : P (list (Node Number))) ts0 tagName name' s ts s' ts' :
  (∃ l, entries_read nc ts0 l ts ∧
        has_entries tagName name' l (the_node s)) →
  node_entry nc s ts = Ok s' ts' →
  ∃ l, entries_read nc ts0 l ts' ∧
       has_entries tagName name' l (the_node s').
Proof.
  intros (l & Hread & Hl) (alt & Hin & _ & Hfirst & Hrun)%OR_Ok.
  alt_cases Hin Hrun.
  - apply bind_Ok in Hrun as (parts & ts1 & H1 & [= <- <-]).
    exists (l ++ [parts]). split; [by eapply read_entry|].
    by apply has_entries_add.
  - apply bind_Ok in Hrun as (c & ts1 & H1 & H).
    apply bind_Ok in H as (sp & ts2 & H2 & [= <- <-]).
    apply bool_decide_eq_true in Hfirst.
    exists l. split; [by eapply read_children|].
    by apply has_entries_children.
  - apply bool_decide_eq_true in Hfirst.
    apply bind_Ok in Hrun as (c & ts1 & H1 & H).
    apply CONSUME_Ok in H1 as (_ & _ & ->).
    apply bind_Ok in H as (sp & ts2 & H2 & H).
    apply OR_Ok in H as (alt & Hin & _ & _ & Hrun).
    alt_cases Hin Hrun.
    + apply bind_Ok in Hrun as (parts & ts3 & H3 & [= <- <-]).
      exists l. split; [by eapply read_commented_entry | done].
    + apply bind_Ok in Hrun as (c' & ts3 & H3 & H).
      apply bind_Ok in H as (sp' & ts4 & H4 & [= <- <-]).
      exists l. split; [by eapply read_commented_children | done].
Qed.

(** X13. The node [node] returns is made of what was read from its tokens,
    in order: the tag, when the tokens start with one, and the node space
    after it; the name; the node space after the name; then the entries the
    entry loop read from there, up to where the end of the node was read.
    The node is its name and tag with those entries added in that order:
    its arguments are the values of the entries without a key, in the order
    they were read, their tags are the tags of the same entries, and every
    key of the properties and of the property tags is the key of one of
    the entries. *)
Theorem node_arguments_in_order {Number} {Base : BaseParser Number}
    (nc : P (list (Node Number))) ts n r :
  node nc ts = Ok n r →
  ∃ tagName ts1 name' k sp ts0 l ts',
    (first_tag (LAtype ts) = false ∧ tagName = None ∧ ts1 = ts ∨
     first_tag (LAtype ts) = true ∧
     ∃ t k0 sp0, tagName = Some t ∧ tag ts = Matched t k0 ∧
                 optSpace (drop k0 ts) = Ok sp0 ts1) ∧
    string_ ts1 = Matched name' k ∧ optSpace (drop k ts1) = Ok sp ts0 ∧
    entries_read nc ts0 l ts' ∧ node_end n ts' = Ok n r ∧
    has_entries tagName name' l n ∧
    values n = arguments l ∧ tags_values (tags n) = argument_tags l ∧
    ∀ key, key ∈ dom (own (properties n)) ∨
           key ∈ dom (own (tags_properties (tags n))) →
           ∃ parts, parts ∈ l ∧ parts0 parts = Some key.
Proof.
  unfold node, node_entries.
  intros (s & ts4 & H & Hend)%bind_Ok.
  apply bind_Ok in H as (tagName & ts1 & H1 & H).
  apply bind_Ok in H as (name' & ts2 & H2 & H).
  apply bind_Ok in H as (space & ts3 & H3 & H).
  apply (MANY_invariant
           (fun s' t' => ∃ l, entries_read nc ts3 l t' ∧
                              has_entries tagName name' l (the_node s')))
    in H.
  2:{ intros s1 t1 s2 t2. apply node_entry_reads. }
  2:{ exists []. split; [constructor | done]. }
  destruct H as (l & Hread & Hn).
  assert (n = the_node s) as Heq.
  { by apply (yields_node_end (the_node s) (fun n' => n' = the_node s))
      in Hend. }
  rewrite <- Heq in Hn, Hend.
  unfold SUBRULE in H2. destruct (string_ ts1) as [nm k|] eqn:E2; [|done].
  injection H2 as -> <-.
  exists tagName, ts1, name', k, space, ts3, l, ts4.
  split_and!; [|done..| | |].
  - unfold OPTION in H1. destruct (first_tag (LAtype ts)) eqn:Hf.
    + right. split; [done|].
      apply bind_Ok in H1 as (t' & ts0 & H1 & [= <- <-]).
      apply bind_Ok in H1 as (t & ts5 & Ht & H1).
      apply bind_Ok in H1 as (sp & ts6 & Hsp & [= <- <-]).
      unfold SUBRULE in Ht. destruct (tag ts) as [t0 k0|] eqn:E1; [|done].
      injection Ht as -> <-. by exists t, k0, sp.
    + left. by injection H1 as <- <-.
  - unfold has_entries in Hn. rewrite Hn. cbn [set_children values].
    by destruct (add_entries_values l (named_node tagName name'))
      as (_ & _ & -> & _).
  - unfold has_entries in Hn. rewrite Hn. cbn [set_children tags].
    by destruct (add_entries_values l (named_node tagName name'))
      as (_ & _ & _ & ->).
  - intros key Hkey.
    destruct (decide (Exists (fun parts => parts0 parts = Some key) l))
      as [(parts & ? & ?)%Exists_exists | Hno]; [by exists parts|].
    apply not_Exists_Forall in Hno; [|intros ?; apply _].
    destruct (add_entries_other key l (named_node tagName name') Hno)
      as [Hp Htp].
    unfold has_entries in Hn. rewrite Hn in Hkey.
    cbn [set_children properties tags] in Hkey.
    rewrite !elem_of_dom, Hp, Htp in Hkey.
    cbn [named_node properties tags tags_properties obj_empty own] in Hkey.
    rewrite !lookup_empty in Hkey. by destruct Hkey as [[]|[]].
Qed.

(** [foo 1 2 {bar}]: the entries read after the name and the space are [1]
    and [2], in that order; the children block adds none. *)
Lemma node_arguments_in_order_witness :
  ∃ tagName ts1 name' k sp ts0 (l : list (Parts Z)) ts',
    (first_tag (BaseParser := Sample.base) (LAtype Sample.foo_1_2_bar) =
       false ∧ tagName = None ∧ ts1 = Sample.foo_1_2_bar ∨
     first_tag (BaseParser := Sample.base) (LAtype Sample.foo_1_2_bar) =
       true ∧
     ∃ t k0 sp0, tagName = Some t ∧
                 tag (BaseParser := Sample.base) Sample.foo_1_2_bar =
                   Matched t k0 ∧
                 optSpace (Base := Sample.base)
                   (drop k0 Sample.foo_1_2_bar) = Ok sp0 ts1) ∧
    string_ (BaseParser := Sample.base) ts1 = Matched name' k ∧
    optSpace (Base := Sample.base) (drop k ts1) = Ok sp ts0 ∧
    entries_read (Base := Sample.base) (nodeChildren (nodes 2)) ts0 l ts' ∧
    node_end (Base := Sample.base)
      (set_children [named_node None "bar"]
         (push_value (VNumber 2%Z) None
            (push_value (VNumber 1%Z) None (named_node None "foo"))))
      ts' =
    Ok (set_children [named_node None "bar"]
          (push_value (VNumber 2%Z) None
             (push_value (VNumber 1%Z) None (named_node None "foo")))) [] ∧
    has_entries tagName name' l
      (set_children [named_node None "bar"]
         (push_value (VNumber 2%Z) None
            (push_value (VNumber 1%Z) None (named_node None "foo")))) ∧
    [VNumber 1%Z; VNumber 2%Z] = arguments l ∧
    [None; None] = argument_tags l ∧
    ∀ key, key ∈ dom (own (obj_empty (A := Value Z))) ∨
           key ∈ dom (own (obj_empty (A := option string))) →
           ∃ parts, parts ∈ l ∧ parts0 parts = Some key.
Proof.
  assert (node (Base := Sample.base) (nodeChildren (nodes 2))
            Sample.foo_1_2_bar =
          Ok (set_children [named_node None "bar"]
                (push_value (VNumber 2%Z) None
                   (push_value (VNumber 1%Z) None (named_node None "foo"))))
             []) as Hrun by reflexivity.
  exact (node_arguments_in_order _ _ _ _ Hrun).
Defined.

(** X14. The name of the node [node] returns is the string the rule
    [string] read first, and its tag is what the rule [tag] read before the
    name, none when the node does not start with a tag: no entry and no
    children block changes either. *)
Theorem node_name_and_tag {Number} {Base : BaseParser Number}
    (nc : P (list (Node Number))) ts n r :
  node nc ts = Ok n r →
  (first_tag (LAtype ts) = false →
   ∃ name' k, string_ ts = Matched name' k ∧
              name n = Some name' ∧ tags_name (tags n) = None) ∧
  (first_tag (LAtype ts) = true →
   ∃ t k sp ts' name' k',
     tag ts = Matched t k ∧ optSpace (drop k ts) = Ok sp ts' ∧
     string_ ts' = Matched name' k' ∧
     name n = Some name' ∧ tags_name (tags n) = Some t).
Proof.
  unfold node, node_entries.
  intros (s & ts4 & H & Hend)%bind_Ok.
  apply bind_Ok in H as (tagName & ts1 & H1 & H).
  apply bind_Ok in H as (name' & ts2 & H2 & H).
  apply bind_Ok in H as (space & ts3 & _ & H).
  apply (yields_MANY
           (fun s' => name (the_node s') = Some name' ∧
                      tags_name (tags (the_node s')) = tagName)) in H;
    [|done|].
  2:{ intros s' Hs'.
      apply (node_entry_keeps nc
               (fun n => name n = Some name' ∧ tags_name (tags n) = tagName));
        [| |done].
      - intros parts n' ?. unfold add_entry. by destruct (parts0 parts).
      - by intros c n' ?. }
  apply (yields_node_end (the_node s) (fun n' => n' = the_node s)) in Hend;
    [|done]. subst n. destruct H as [Hname Htag].
  unfold SUBRULE in H2. destruct (string_ ts1) as [nm k'|] eqn:E2; [|done].
  injection H2 as -> <-.
  unfold OPTION in H1. split; intros Hf; rewrite Hf in H1.
  - injection H1 as <- <-. by exists name', k'.
  - apply bind_Ok in H1 as (t' & ts0 & H1 & [= <- <-]).
    apply bind_Ok in H1 as (t & ts5 & Ht & H1).
    apply bind_Ok in H1 as (sp & ts6 & Hsp & [= <- <-]).
    unfold SUBRULE in Ht. destruct (tag ts) as [t0 k|] eqn:E1; [|done].
    injection Ht as -> <-. do 6 eexists.
    split_and!; [reflexivity | exact Hsp | exact E2 | done..].
Qed.

Lemma node_name_and_tag_witness :
  ∃ t k sp ts' name' k',
    tag (BaseParser := Sample.base) Sample.t_foo_1 = Matched t k ∧
    optSpace (Base := Sample.base) (drop k Sample.t_foo_1) = Ok sp ts' ∧
    string_ (BaseParser := Sample.base) ts' = Matched name' k' ∧
    Some "foo" = Some name' ∧ Some "t" = Some t.
Proof.
  assert (node (Base := Sample.base) (nodeChildren (nodes 1))
            Sample.t_foo_1 =
          Ok (push_value (VNumber 1%Z) None (named_node (Some "t") "foo"))
             []) as Hrun by reflexivity.
  assert (first_tag (BaseParser := Sample.base) (LAtype Sample.t_foo_1) = true)
    as Htag by reflexivity.
  exact (proj2 (node_name_and_tag _ _ _ _ Hrun) Htag).
Defined.

(** ** The rule [propertyOrArgument] *)

(** X15. An entry that starts with a string (and with nothing that starts a
    tag or another value): when no equals sign follows the string and the
    node space after it, the entry is the argument whose value is that
    string, without tag; when an equals sign follows, whatever
    [propertyOrArgument] returns is a property whose key is that string, so
    that [node] sets a property and adds no argument. *)
Theorem string_entry_property_or_argument {Number}
    {Base : BaseParser Number} ts k n sp ts1 :
  first_tag (LAtype ts) = false →
  first_nonStringValue (LAtype ts) = false →
  first_string (LAtype ts) = true →
  string_ ts = Matched k n → optSpace (drop n ts) = Ok sp ts1 →
  (LAtype ts1 ≠ Equals →
   propertyOrArgument ts =
     Ok (mkParts None (VString k) None (truthy sp)) ts1) ∧
  (LAtype ts1 = Equals →
   ∀ parts r, propertyOrArgument ts = Ok parts r →
     parts0 parts = Some k ∧
     ∀ nd : Node Number,
       add_entry parts nd = set_property k (parts1 parts) (parts2 parts) nd).
Proof.
  intros Ht Hv Hs Hk Hsp.
  assert (propertyOrArgument ts =
          (assigned <- OPTION (only Equals) (
             _ <- CONSUME Equals ;;
             _ <- optSpace ;;
             tag' <- OPTION first_tag (
               tag'' <- SUBRULE tag ;;
               _ <- optSpace ;;
               ret tag'') ;;
             value' <- SUBRULE value ;;
             hasSpaceAfter <- optSpace ;;
             ret (mkParts (Some k) value' tag' (truthy hasSpaceAfter))) ;;
           ret (default (mkParts None (VString k) None (truthy sp))
                  assigned)) ts1) as ->.
  { unfold propertyOrArgument. rewrite !OR_cons. cbn [GATE FIRST ALT].
    rewrite Ht, Hv, Hs. cbn [andb]. unfold bind at 1, SUBRULE at 1.
    rewrite Hk. unfold bind at 1. by rewrite Hsp. }
  split.
  - intros HL. unfold bind, OPTION, only.
    by rewrite bool_decide_false.
  - intros HL parts r. unfold bind at 1, OPTION at 1, only.
    rewrite bool_decide_true by done.
    destruct (bind _ _ ts1) as [parts' r'| |] eqn:E; [|done..].
    intros [= <- <-].
    apply bind_Ok in E as (x & ts2 & E & [= <- <-]).
    apply bind_Ok in E as (eq & ts3 & _ & E).
    apply bind_Ok in E as (sp' & ts4 & _ & E).
    apply bind_Ok in E as (tag' & ts5 & _ & E).
    apply bind_Ok in E as (value' & ts6 & _ & E).
    apply bind_Ok in E as (sp'' & ts7 & _ & [= <- <-]).
    done.
Qed.

Lemma string_entry_property_or_argument_witness :
  parts0 (mkParts (Some "a") (VNumber 2%Z) None false) = Some "a" ∧
  ∀ nd : Node Z,
    add_entry (mkParts (Some "a") (VNumber 2%Z) None false) nd =
    set_property "a" (VNumber 2%Z) None nd.
Proof.
  assert (propertyOrArgument (Base := Sample.base)
            [Sample.tok Identifier "a"; Sample.tok WhiteSpace " ";
             Sample.tok Equals "="; Sample.tok Integer "2"] =
          Ok (mkParts (Some "a") (VNumber 2%Z) None false) [])
    as Hrun by reflexivity.
  assert (LAtype [Sample.tok Equals "="; Sample.tok Integer "2"] = Equals)
    as HL by reflexivity.
  refine (proj2 (string_entry_property_or_argument (Base := Sample.base)
                   [Sample.tok Identifier "a"; Sample.tok WhiteSpace " ";
                    Sample.tok Equals "="; Sample.tok Integer "2"]
                   "a" 1 (Some true)
                   [Sample.tok Equals "="; Sample.tok Integer "2"]
                   _ _ _ _ _) HL _ _ Hrun); reflexivity.
Defined.

(** X16. The children of the node [node] returns come from nowhere but a
    children block: they are none, or they are what the rule for children
    blocks returned on tokens that start with an opening brace. *)
Theorem node_children_from_block {Number} {Base : BaseParser Number}
    (nc : P (list (Node Number))) ts n r :
  node nc ts = Ok n r →
  children n = [] ∨
  ∃ ts' r', LAtype ts' = LeftBrace ∧ nc ts' = Ok (children n) r'.
Proof.
  unfold node, node_entries.
  intros (s & ts4 & H & Hend)%bind_Ok.
  apply bind_Ok in H as (tagName & ts1 & _ & H).
  apply bind_Ok in H as (name' & ts2 & _ & H).
  apply bind_Ok in H as (space & ts3 & _ & H).
  apply (yields_node_end (the_node s) (fun n' => n' = the_node s)) in Hend;
    [|done]. subst n.
  apply (MANY_invariant
           (fun s' _ =>
              children (the_node s') = [] ∨
              ∃ ts' r', LAtype ts' = LeftBrace ∧
                        nc ts' = Ok (children (the_node s')) r')) in H;
    [done| |by left].
  clear. intros s ts s' ts' Hs (alt & Hin & _ & Hfirst & Hrun)%OR_Ok.
  alt_cases Hin Hrun.
  - apply bind_Ok in Hrun as (parts & ts1 & _ & [= <- <-]).
    cbn [the_node]. by rewrite children_add_entry.
  - apply bind_Ok in Hrun as (c & ts1 & H1 & H).
    apply bind_Ok in H as (sp & ts2 & _ & [= <- <-]).
    right. exists ts, ts1. split; [|done].
    by apply bool_decide_eq_true in Hfirst.
  - apply bind_Ok in Hrun as (c & ts1 & _ & H).
    apply bind_Ok in H as (sp & ts2 & _ & H).
    apply OR_Ok in H as (alt & Hin & _ & _ & Hrun).
    alt_cases Hin Hrun.
    + by apply bind_Ok in Hrun as (parts & ts3 & _ & [= <- <-]).
    + apply bind_Ok in Hrun as (c' & ts3 & _ & H).
      by apply bind_Ok in H as (sp' & ts4 & _ & [= <- <-]).
Qed.

Lemma node_children_from_block_witness :
  [named_node (Number := Z) None "bar"] = [] ∨
  ∃ ts' r',
    LAtype ts' = LeftBrace ∧
    nodeChildren (nodes (Base := Sample.base) 2) ts' =
      Ok [named_node None "bar"] r'.
Proof.
  assert (node (Base := Sample.base) (nodeChildren (nodes 2))
            Sample.foo_1_2_bar =
          Ok (set_children [named_node None "bar"]
                (push_value (VNumber 2%Z) None
                   (push_value (VNumber 1%Z) None (named_node None "foo"))))
             []) as Hrun by reflexivity.
  exact (node_children_from_block _ _ _ _ Hrun).
Defined.
